(** * Corpus cleaning: a model of [scripts/data_cleaning.py]

    The development follows the Python module top down: text as lists of
    code points, the pieces of the Python runtime the module calls
    ([str.strip], [str.split], [float], the [re] engine, the Unicode
    tables), the compiled patterns, [normalize], [bad_line],
    [noisy_mono_line] and the two drivers [clean_parallel] and
    [clean_mono_gz]. *)

From stdpp Require Import gmap strings.
From Stdlib Require Import NArith ZArith List Bool Ascii Lia Sorted.
From Stdlib Require Import Floats.SpecFloat.
Import ListNotations.

(** ** Text *)

(** A Python [str] is a sequence of Unicode code points. *)
Definition char := N.
Definition str := list char.

Definition ch (a : ascii) : char := N_of_ascii a.
Definition str_of (s : string) : str :=
  map N_of_ascii (String.list_ascii_of_string s).
Arguments ch a%_char : simpl never.
Arguments str_of s%_string : simpl never.

Definition NL : str := [10%N].

(** [str.isspace] on one code point, which is also what [\s], [str.strip]
    and [str.split] test: the fixed list of CPython's
    [_PyUnicode_IsWhitespace]. *)
Definition isspace (c : char) : bool :=
  ((9 <=? c) && (c <=? 13) || (28 <=? c) && (c <=? 32)
   || (c =? 0x85) || (c =? 0xa0) || (c =? 0x1680)
   || (0x2000 <=? c) && (c <=? 0x200a)
   || (c =? 0x2028) || (c =? 0x2029) || (c =? 0x202f)
   || (c =? 0x205f) || (c =? 0x3000))%N.

(** The Unicode character database is not part of the repository.  The
    operations the module takes from it are parameters of the model. *)
Class Unicode := {
  (** [unicodedata.normalize("NFKC", s)] *)
  nfkc : str -> str;
  (** [s.lower()] *)
  lower : str -> str;
  (** [ch.isalpha()] and [ch.isalnum()] *)
  isalpha : char -> bool;
  isalnum : char -> bool;
  (** the decimal digit value of a code point, if it has one: [\d] in a
      pattern and the digits [float] accepts *)
  todecimal : char -> option N;
  (** the simple case mappings [re.IGNORECASE] compares with *)
  tolower : char -> char;
  toupper : char -> char
}.

Definition isdecimal `{Unicode} (c : char) : bool :=
  match todecimal c with Some _ => true | None => false end.

(** ** String methods *)

Fixpoint lstrip (s : str) : str :=
  match s with
  | c :: s' => if isspace c then lstrip s' else s
  | [] => []
  end.

Definition rstrip (s : str) : str := rev (lstrip (rev s)).

(** [s.strip()] *)
Definition strip (s : str) : str := rstrip (lstrip s).

(** [s.split()]: the maximal runs of non-whitespace characters.  [w] is the
    word being read, in reverse. *)
Fixpoint split_aux (w : str) (s : str) : list str :=
  match s with
  | [] => match w with [] => [] | _ => [rev w] end
  | c :: s' =>
    if isspace c
    then match w with [] => split_aux [] s' | _ => rev w :: split_aux [] s' end
    else split_aux (c :: w) s'
  end.

Definition split (s : str) : list str := split_aux [] s.

(** [len(x)] as a Python integer. *)
Definition len {A} (l : list A) : Z := Z.of_nat (length l).

(** ** Floating point

    Python floats are IEEE 754 binary64 values; [SpecFloat] gives them with
    round-to-nearest-even arithmetic on integers. *)
Definition float := spec_float.
Definition prec : Z := 53.
Definition emax : Z := 1024.

(** An integer as an exact, not yet rounded, operand. *)
Definition exact_of_Z (z : Z) : float :=
  match z with
  | Z0 => S754_zero false
  | Zpos p => S754_finite false p 0
  | Zneg p => S754_finite true p 0
  end.

(** [a / b] on Python integers with [b >= 1]: the correctly rounded
    quotient. *)
Definition truediv (a : Z) (b : positive) : float :=
  SFdiv prec emax (exact_of_Z a) (S754_finite false b 0).

(** The float nearest to [m * 10^e]: what a decimal literal or [float] of a
    decimal string denotes. *)
Definition float_of_decimal (neg : bool) (m : N) (e : Z) : float :=
  match m with
  | N0 => S754_zero neg
  | Npos p =>
    match e with
    | Zneg k => SFdiv prec emax (S754_finite neg p 0)
                  (S754_finite false (Pos.pow 10 k) 0)
    | _ => binary_normalize prec emax
             ((if neg then Zneg p else Zpos p) * 10 ^ e) 0 false
    end
  end.

Definition flt (x y : float) : bool := SFltb x y.

(** *** [float(s)] on a string

    The builtin first maps every non-ASCII decimal digit to its ASCII digit
    and every non-ASCII whitespace character to a space, trims ASCII
    whitespace, checks and removes digit-group underscores, and then reads
    an optionally signed decimal number with optional fraction and exponent,
    or one of [inf], [infinity], [nan].  [None] stands for [ValueError]. *)
Fixpoint to_ascii_number `{Unicode} (s : str) : str :=
  match s with
  | [] => []
  | c :: s' =>
    if (c <? 127)%N then c :: to_ascii_number s'
    else if isspace c then 32%N :: to_ascii_number s'
    else match todecimal c with
         | Some d => (48 + d)%N :: to_ascii_number s'
         | None => [63%N]
         end
  end.

Definition ascii_isspace (c : char) : bool :=
  ((9 <=? c) && (c <=? 13) || (c =? 32))%N.

Definition ascii_isdigit (c : char) : bool := ((48 <=? c) && (c <=? 57))%N.

Fixpoint drop_ascii_space (s : str) : str :=
  match s with
  | c :: s' => if ascii_isspace c then drop_ascii_space s' else s
  | [] => []
  end.

(** Underscores may only stand between two digits; [prev] is the previous
    character ([0] before the first). *)
Fixpoint remove_underscores (prev : char) (s : str) : option str :=
  match s with
  | [] => if (prev =? 95)%N then None else Some []
  | c :: s' =>
    if (c =? 0)%N then None
    else if (c =? 95)%N
    then if ascii_isdigit prev then remove_underscores c s' else None
    else if (prev =? 95)%N && negb (ascii_isdigit c) then None
    else option_map (cons c) (remove_underscores c s')
  end.

(** Reads a run of digits: the number read so far, how many digits were
    read, and the rest of the input. *)
Fixpoint read_digits (acc : N) (n : Z) (s : str) : N * Z * str :=
  match s with
  | c :: s' =>
    if ascii_isdigit c then read_digits (10 * acc + (c - 48))%N (n + 1)%Z s'
    else (acc, n, s)
  | [] => (acc, n, [])
  end.

Definition read_sign (s : str) : bool * str :=
  match s with
  | 43%N :: s' => (false, s')
  | 45%N :: s' => (true, s')
  | _ => (false, s)
  end.

Definition ascii_lower (c : char) : char :=
  if ((65 <=? c) && (c <=? 90))%N then (c + 32)%N else c.

Definition str_eqb (a b : str) : bool := bool_decide (a = b).

Definition parse_number (s : str) : option float :=
  let '(neg, s1) := read_sign s in
  let word := map ascii_lower s1 in
  if str_eqb word (str_of "inf") || str_eqb word (str_of "infinity")
  then Some (S754_infinity neg)
  else if str_eqb word (str_of "nan") then Some S754_nan
  else
    let '(ip, ni, s2) := read_digits 0 0 s1 in
    let '(m, nf, s3) :=
      match s2 with
      | 46%N :: r => read_digits ip 0 r
      | _ => (ip, 0%Z, s2)
      end in
    if (ni + nf =? 0)%Z then None
    else match s3 with
         | [] => Some (float_of_decimal neg m (- nf))
         | e :: r =>
           if (e =? 101)%N || (e =? 69)%N then
             let '(eneg, r1) := read_sign r in
             let '(ev, ne, r2) := read_digits 0 0 r1 in
             match r2 with
             | [] =>
               if (ne =? 0)%Z then None
               else Some (float_of_decimal neg m
                            ((if eneg then - Z.of_N ev else Z.of_N ev) - nf))
             | _ => None
             end
           else None
         end.

Definition py_float `{Unicode} (s : str) : option float :=
  let t := rev (drop_ascii_space (rev (drop_ascii_space (to_ascii_number s)))) in
  if existsb (N.eqb 95) t
  then match remove_underscores 0%N t with
       | Some t' => parse_number t'
       | None => None
       end
  else if existsb (N.eqb 0) t then None
  else parse_number t.

(** ** Regular expressions

    The patterns of the module use literals, character sets, the classes
    [\s] and [\d], the anchor [^], concatenation, alternation, greedy
    repetition, one capturing group and a reference to it. *)
Inductive cset :=
| CChar (c : char)
| CRange (lo hi : char)
| CSpace
| CDigit.

Inductive regex :=
| Eps
| Chr (c : char)
| Cls (neg : bool) (cs : list cset)
| Bol
| Cat (r1 r2 : regex)
| Alt (r1 r2 : regex)
| Rep (lo : nat) (hi : option nat) (r : regex)
| Grp (r : regex)
| Ref.

Fixpoint cat (rs : list regex) : regex :=
  match rs with
  | [] => Eps
  | [r] => r
  | r :: rs' => Cat r (cat rs')
  end.

Definition lit (s : str) : regex := cat (map Chr s).
Definition opt (r : regex) : regex := Rep 0 (Some 1) r.
Definition star (r : regex) : regex := Rep 0 None r.
Definition plus (r : regex) : regex := Rep 1 None r.
Definition any_of (s : str) : regex := Cls false (map CChar s).

(** Lowercased characters that share an uppercase with another lowercase
    character ([re._casefix._EXTRA_CASES]). *)
Definition extra_cases : list (char * list char) :=
  [(0x69, [0x131]); (0x73, [0x17f]); (0xb5, [0x3bc]); (0x131, [0x69]);
   (0x17f, [0x73]); (0x345, [0x3b9; 0x1fbe]); (0x390, [0x1fd3]);
   (0x3b0, [0x1fe3]); (0x3b2, [0x3d0]); (0x3b5, [0x3f5]); (0x3b8, [0x3d1]);
   (0x3b9, [0x345; 0x1fbe]); (0x3ba, [0x3f0]); (0x3bc, [0xb5]);
   (0x3c0, [0x3d6]); (0x3c1, [0x3f1]); (0x3c2, [0x3c3]); (0x3c3, [0x3c2]);
   (0x3c6, [0x3d5]); (0x3d0, [0x3b2]); (0x3d1, [0x3b8]); (0x3d5, [0x3c6]);
   (0x3d6, [0x3c0]); (0x3f0, [0x3ba]); (0x3f1, [0x3c1]); (0x3f5, [0x3b5]);
   (0x432, [0x1c80]); (0x434, [0x1c81]); (0x43e, [0x1c82]);
   (0x441, [0x1c83]); (0x442, [0x1c84; 0x1c85]); (0x44a, [0x1c86]);
   (0x463, [0x1c87]); (0x1c80, [0x432]); (0x1c81, [0x434]);
   (0x1c82, [0x43e]); (0x1c83, [0x441]); (0x1c84, [0x442; 0x1c85]);
   (0x1c85, [0x442; 0x1c84]); (0x1c86, [0x44a]); (0x1c87, [0x463]);
   (0x1c88, [0xa64b]); (0x1e61, [0x1e9b]); (0x1e9b, [0x1e61]);
   (0x1fbe, [0x345; 0x3b9]); (0x1fd3, [0x390]); (0x1fe3, [0x3b0]);
   (0xa64b, [0x1c88]); (0xfb05, [0xfb06]); (0xfb06, [0xfb05])]%N.

Fixpoint assoc (k : char) (l : list (char * list char)) : list char :=
  match l with
  | [] => []
  | (k', v) :: l' => if (k =? k')%N then v else assoc k l'
  end.

Definition is_nil (s : str) : bool := match s with [] => true | _ => false end.

Section Engine.
Context `{Unicode}.

Definition cset_mem (i : cset) (c : char) : bool :=
  match i with
  | CChar d => (c =? d)%N
  | CRange lo hi => ((lo <=? c) && (c <=? hi))%N
  | CSpace => isspace c
  | CDigit => isdecimal c
  end.

Definition in_set (neg : bool) (cs : list cset) (c : char) : bool :=
  xorb neg (existsb (fun i => cset_mem i c) cs).

(** [_sre.unicode_iscased] *)
Definition iscased (c : char) : bool :=
  negb (c =? tolower c)%N || negb (c =? toupper c)%N.

(** A literal of the pattern against a character of the text.  Under
    [re.IGNORECASE] a cased literal is compiled to its lowercase, together
    with the extra cases of that lowercase, and compared with the
    lowercase of the text character. *)
Definition lit_match (icase : bool) (p c : char) : bool :=
  if icase && iscased p
  then let lo := tolower p in
       existsb (N.eqb (tolower c)) (lo :: assoc lo extra_cases)
  else (c =? p)%N.

Fixpoint starts_with (w s : str) : option str :=
  match w, s with
  | [], _ => Some s
  | a :: w', b :: s' => if (a =? b)%N then starts_with w' s' else None
  | _ :: _, [] => None
  end.

(** A continuation receives whether the position is still the start of
    the text, the rest of the text, and the text of group 1. *)
Definition cont := bool -> str -> option str -> option str.

(** The rounds of a greedy repetition of a pattern matched by [m], between
    [lo] and [hi] of them: one more round is tried first, and the
    repetition stops where no further round leads to a match.  A round has
    to consume a character, so the length of the text bounds the rounds. *)
Fixpoint rep_loop (m : bool -> str -> option str -> cont -> option str)
    (k : cont) (fuel lo : nat) (hi : option nat) (bos : bool) (s : str)
    (g : option str) {struct fuel} : option str :=
  let stop := match lo with O => k bos s g | S _ => None end in
  match fuel, hi with
  | O, _ => stop
  | _, Some O => stop
  | S fuel', _ =>
    match m bos s g
            (fun b s' g' =>
               if (length s' <? length s)%nat
               then rep_loop m k fuel' (Nat.pred lo) (option_map Nat.pred hi) b s' g'
               else None) with
    | Some x => Some x
    | None => stop
    end
  end.

(** The backtracking matcher: alternatives are tried left to right and a
    repetition takes as many rounds as it can before it gives one back.
    The result is the text that follows the match. *)
Fixpoint rmatch (icase : bool) (r : regex) (bos : bool) (s : str)
    (g : option str) (k : cont) {struct r} : option str :=
  match r with
  | Eps => k bos s g
  | Chr p =>
    match s with
    | c :: s' => if lit_match icase p c then k false s' g else None
    | [] => None
    end
  | Cls neg cs =>
    match s with
    | c :: s' => if in_set neg cs c then k false s' g else None
    | [] => None
    end
  | Bol => if bos then k bos s g else None
  | Cat r1 r2 =>
    rmatch icase r1 bos s g (fun b s' g' => rmatch icase r2 b s' g' k)
  | Alt r1 r2 =>
    match rmatch icase r1 bos s g k with
    | Some x => Some x
    | None => rmatch icase r2 bos s g k
    end
  | Rep lo hi r1 => rep_loop (rmatch icase r1) k (length s) lo hi bos s g
  | Grp r1 =>
    rmatch icase r1 bos s g
      (fun b s' _ => k b s' (Some (firstn (length s - length s') s)))
  | Ref =>
    match g with
    | Some w =>
      match starts_with w s with
      | Some s' => k (bos && is_nil w) s' g
      | None => None
      end
    | None => None
    end
  end.

Definition match_at (icase : bool) (r : regex) (bos : bool) (s : str) : option str :=
  rmatch icase r bos s None (fun _ s' _ => Some s').

(** [pattern.search(s)] as a truth value. *)
Fixpoint search_from (icase : bool) (r : regex) (bos : bool) (s : str) : bool :=
  match match_at icase r bos s with
  | Some _ => true
  | None =>
    match s with
    | [] => false
    | _ :: s' => search_from icase r false s'
    end
  end.

Definition search (icase : bool) (r : regex) (s : str) : bool :=
  search_from icase r true s.

(** [pattern.sub(repl, s)]: the leftmost matches, one after the other,
    are replaced. *)
Fixpoint sub_from (fuel : nat) (icase : bool) (r : regex) (repl : str)
    (bos : bool) (s : str) : str :=
  match fuel with
  | O => s
  | S fuel' =>
    let skip :=
      match s with
      | [] => []
      | c :: s' => c :: sub_from fuel' icase r repl false s'
      end in
    match match_at icase r bos s with
    | Some rest =>
      if (length rest <? length s)%nat
      then repl ++ sub_from fuel' icase r repl false rest
      else repl ++ skip
    | None => skip
    end
  end.

Definition sub (icase : bool) (r : regex) (repl : str) (s : str) : str :=
  sub_from (S (length s)) icase r repl true s.
End Engine.

(** ** The patterns of the module *)

Definition space : regex := Cls false [CSpace].
Definition digit : regex := Cls false [CDigit].

(** [(https?://|www\.)], compiled with [re.IGNORECASE] *)
Definition URLISH : regex :=
  Grp (Alt (cat [lit (str_of "http"); opt (Chr (ch "s")); lit (str_of "://")])
           (cat [lit (str_of "www"); Chr (ch ".")])).

(** [(<[^>]+>|&nbsp;|&#\d+;)] *)
Definition HTMLISH : regex :=
  Grp (Alt (cat [Chr (ch "<"); plus (Cls true [CChar (ch ">")]); Chr (ch ">")])
      (Alt (lit (str_of "&nbsp;"))
           (cat [lit (str_of "&#"); plus digit; Chr (ch ";")]))).

(** [[\u0000-\u001f]] *)
Definition CTRL : regex := Cls false [CRange 0%N 0x1f%N].

(** [^\s*[\[\(\{]?\d+(?:\.\d+)?[\]\)\}]?\s*] *)
Definition LEADING_ANNOT : regex :=
  cat [Bol; star space; opt (any_of (str_of "[({")); plus digit;
       opt (cat [Chr (ch "."); plus digit]); opt (any_of (str_of "])}"));
       star space].

(** [[\[\]\(\)\{\}]] *)
Definition BRACKET_CHARS : regex := any_of (str_of "[](){}").

(** [[\uFEFF\u200B\u200C\u200D\u2060]] *)
Definition ZERO_WIDTH : regex :=
  any_of [0xFEFF; 0x200B; 0x200C; 0x200D; 0x2060]%N.

(** [^\s*:\d+(?:\.\d+)?\s*] *)
Definition LEADING_COLON_NUM : regex :=
  cat [Bol; star space; Chr (ch ":"); plus digit;
       opt (cat [Chr (ch "."); plus digit]); star space].

(** The pattern [^\s*[...]{2,}] over the set of [! ? . ; , : ' * _ ~ -] and
    the double quote (code point 34). *)
Definition LEADING_PUNCT_SPAM : regex :=
  cat [Bol; star space;
       Rep 2 None (any_of (str_of "!?.;,:'" ++ [34%N] ++ str_of "*_~-"))].

(** [(\$\d+|{{|}}|\[\[|\]\])] *)
Definition TEMPLATE_ARTIFACTS : regex :=
  Grp (Alt (cat [Chr (ch "$"); plus digit])
      (Alt (lit (str_of "{{"))
      (Alt (lit (str_of "}}"))
      (Alt (lit (str_of "[[")) (lit (str_of "]]")))))).

(** [([!?.])\1{3,}] *)
Definition REPEATED_PUNCT : regex :=
  cat [Grp (any_of (str_of "!?.")); Rep 3 None Ref].

(** The inline pattern [\s+] of [normalize]. *)
Definition SPACES : regex := plus space.

(** ** The line functions *)

Section Lines.
Context `{Unicode}.

Definition normalize_with (lowercase : bool) (s : str) : str :=
  let s := strip s in
  let s := sub false ZERO_WIDTH [] s in
  let s := nfkc s in
  let s := sub false LEADING_COLON_NUM [] s in
  let s := sub false LEADING_ANNOT [] s in
  let s := sub false BRACKET_CHARS (str_of " ") s in
  let s := sub false CTRL (str_of " ") s in
  let s := strip (sub false SPACES (str_of " ") s) in
  if lowercase then lower s else s.

(** [normalize(s)], with the default [lowercase=True]. *)
Definition normalize (s : str) : str := normalize_with true s.

(** U+FFFD, the replacement character. *)
Definition REPLACEMENT : char := 0xFFFD%N.

Definition bad_line (s : str) : bool :=
  match s with
  | [] => true
  | _ =>
    if existsb (N.eqb REPLACEMENT) s then true
    else if search true URLISH s || search false HTMLISH s then true
    else if negb (existsb isalpha s) then true
    else false
  end.

(** [sum(p(ch) for ch in s)] *)
Definition count (p : char -> bool) (s : str) : Z :=
  len (List.filter p s).

(** The float literals [0.6] and [0.2]. *)
Definition f0_6 : float := float_of_decimal false 6 (-1).
Definition f0_2 : float := float_of_decimal false 2 (-1).

Definition std_punct : str := str_of ".,?!:;'" ++ [34%N] ++ str_of "()-".

Definition noisy_mono_line (s : str) : bool :=
  if search false LEADING_PUNCT_SPAM s then true
  else if search false TEMPLATE_ARTIFACTS s then true
  else if search false REPEATED_PUNCT s then true
  else
    let letters := count isalpha s in
    let total := len s in
    if (0 <? total)%Z && flt (truediv letters (Z.to_pos total)) f0_6 then true
    else
      let weird :=
        count (fun c => negb (isalnum c || isspace c
                              || existsb (N.eqb c) std_punct)) s in
      if (0 <? total)%Z && flt f0_2 (truediv weird (Z.to_pos total)) then true
      else false.
End Lines.

(** ** Basic Latin

    The Unicode tables cut down to the Basic Latin block: the letters and
    digits of ASCII are what they are in Unicode, and every other code
    point is taken as unassigned (no case, no letter, no digit, left alone
    by NFKC).  On ASCII text the operations are those of Python. *)
Module BasicLatin.
Definition is_upper (c : char) : bool := ((65 <=? c) && (c <=? 90))%N.
Definition is_lower (c : char) : bool := ((97 <=? c) && (c <=? 122))%N.
Definition to_lower (c : char) : char := if is_upper c then (c + 32)%N else c.
Definition to_upper (c : char) : char := if is_lower c then (c - 32)%N else c.
Definition to_decimal (c : char) : option N :=
  if ascii_isdigit c then Some (c - 48)%N else None.

#[export] Instance tables : Unicode := {|
  nfkc s := s;
  lower s := map to_lower s;
  isalpha c := is_upper c || is_lower c;
  isalnum c := is_upper c || is_lower c || ascii_isdigit c;
  todecimal := to_decimal;
  tolower := to_lower;
  toupper := to_upper
|}.
End BasicLatin.

(** Basic Latin with the one composition NFKC makes of [h] followed by
    U+0331 (combining macron below): U+1E96, a letter that has no capital. *)
Module LineBelow.
Fixpoint compose (s : str) : str :=
  match s with
  | c :: s' =>
    match s' with
    | d :: s'' =>
      if ((c =? 0x68) && (d =? 0x331))%N then 0x1E96%N :: compose s''
      else c :: compose s'
    | [] => [c]
    end
  | [] => []
  end.

#[export] Instance tables : Unicode := {|
  nfkc := compose;
  lower s := map BasicLatin.to_lower s;
  isalpha c := BasicLatin.is_upper c || BasicLatin.is_lower c || (c =? 0x1E96)%N;
  isalnum c := BasicLatin.is_upper c || BasicLatin.is_lower c || (c =? 0x1E96)%N
               || ascii_isdigit c;
  todecimal := BasicLatin.to_decimal;
  tolower := BasicLatin.to_lower;
  toupper := BasicLatin.to_upper
|}.
End LineBelow.

(** ** The drivers

    A file opened for reading is the list of its lines, as iteration yields
    them; a file opened for writing is the list of the strings written to
    it, in order; standard output is a list of events. *)

Inductive event :=
| Progress (processed kept dropped : Z)
| Summary (kept dropped : Z).

(** The exits of a loop body: one for each [continue] and one for the end of
    the body, reached after the writes. *)
Inductive reason :=
| ScoreParse | ScoreLow | Malformed | Noisy | TooManyWords | BadRatio | Duplicate.

Inductive outcome :=
| Dropped (why : reason)
| Written.

(** *** [clean_parallel] *)

(** [kept], [dropped] and [seen] are the variables of [clean_parallel] the
    helpers share; [pairs] and the two output files belong to the helper
    that runs. *)
Record pstate := {
  kept : Z;
  dropped : Z;
  seen : option (gset (str * str));
  pairs : Z;
  oe : list str;
  os : list str;
  stdout : list event
}.

Definition count_pair (st : pstate) : pstate :=
  {| kept := kept st; dropped := dropped st; seen := seen st;
     pairs := pairs st + 1; oe := oe st; os := os st; stdout := stdout st |}.

Definition drop (st : pstate) : pstate :=
  {| kept := kept st; dropped := dropped st + 1; seen := seen st;
     pairs := pairs st; oe := oe st; os := os st; stdout := stdout st |}.

Definition remember (key : str * str) (st : pstate) : pstate :=
  {| kept := kept st; dropped := dropped st;
     seen := match seen st with
             | Some keys => Some ({[ key ]} ∪ keys)
             | None => None
             end;
     pairs := pairs st; oe := oe st; os := os st; stdout := stdout st |}.

(** The two writes and [kept += 1]. *)
Definition write_pair (en sw : str) (st : pstate) : pstate :=
  {| kept := kept st + 1; dropped := dropped st; seen := seen st;
     pairs := pairs st;
     oe := oe st ++ [en ++ NL]; os := os st ++ [sw ++ NL];
     stdout := stdout st |}.

Definition print (e : event) (st : pstate) : pstate :=
  {| kept := kept st; dropped := dropped st; seen := seen st;
     pairs := pairs st; oe := oe st; os := os st;
     stdout := stdout st ++ [e] |}.

(** The progress line at the end of the body. *)
Definition report (st : pstate) : pstate :=
  if (pairs st mod 1000000 =? 0)%Z
  then print (Progress (pairs st) (kept st) (dropped st)) st
  else st.

(** [kept = dropped = 0] and [seen = set() if dedup else None], before a
    helper is entered. *)
Definition fresh (dedup : bool) : pstate :=
  {| kept := 0; dropped := 0; seen := if dedup then Some ∅ else None;
     pairs := 0; oe := []; os := []; stdout := [] |}.

(** [max(a, b) / max(1, min(a, b))] *)
Definition ratio_of_counts (a b : Z) : float :=
  truediv (Z.max a b) (Z.to_pos (Z.max 1 (Z.min a b))).

Definition length_ratio (en_w sw_w : list str) : float :=
  ratio_of_counts (len en_w) (len sw_w).

Section Parallel.
Context `{Unicode}.
Variables (min_score : float) (max_words : Z) (max_ratio : float).

Definition no_score_body (st : pstate) (en_raw sw_raw : str) : pstate * outcome :=
  let st := count_pair st in
  let en := normalize en_raw in
  let sw := normalize sw_raw in
  if bad_line en || bad_line sw then (drop st, Dropped Malformed)
  else
    let en_w := split en in
    let sw_w := split sw in
    if (max_words <? len en_w)%Z || (max_words <? len sw_w)%Z
    then (drop st, Dropped TooManyWords)
    else
      let ratio := length_ratio en_w sw_w in
      if flt max_ratio ratio then (drop st, Dropped BadRatio)
      else
        match seen st with
        | Some keys =>
          if bool_decide ((en, sw) ∈ keys) then (drop st, Dropped Duplicate)
          else (report (write_pair en sw (remember (en, sw) st)), Written)
        | None => (report (write_pair en sw st), Written)
        end.

Definition with_score_body (st : pstate) (en_raw sw_raw score_raw : str)
  : pstate * outcome :=
  let st := count_pair st in
  match py_float (strip score_raw) with
  | None => (drop st, Dropped ScoreParse)
  | Some score =>
    if flt score min_score then (drop st, Dropped ScoreLow)
    else
      let en := normalize en_raw in
      let sw := normalize sw_raw in
      if bad_line en || bad_line sw then (drop st, Dropped Malformed)
      else
        let en_w := split en in
        let sw_w := split sw in
        if (max_words <? len en_w)%Z || (max_words <? len sw_w)%Z
        then (drop st, Dropped TooManyWords)
        else
          let ratio := length_ratio en_w sw_w in
          if flt max_ratio ratio then (drop st, Dropped BadRatio)
          else (report (write_pair en sw st), Written)
  end.

(** The helpers start with [pairs = 0] and two empty output files, run
    the body over the zipped inputs and print the summary. *)
Definition enter (st : pstate) : pstate :=
  {| kept := kept st; dropped := dropped st; seen := seen st;
     pairs := 0; oe := []; os := []; stdout := stdout st |}.

Definition summarize (st : pstate) : pstate :=
  print (Summary (kept st) (dropped st)) st.

Definition no_score_loop (st : pstate) (rows : list (str * str)) : pstate :=
  fold_left (fun st row => fst (no_score_body st row.1 row.2)) rows st.

Definition with_score_loop (st : pstate) (rows : list (str * str * str)) : pstate :=
  fold_left (fun st row => fst (with_score_body st row.1.1 row.1.2 row.2)) rows st.

Definition helper_no_score (st : pstate) (fe fs : list str) : pstate :=
  summarize (no_score_loop (enter st) (combine fe fs)).

Definition helper_with_score (st : pstate) (fe fs fscore : list str) : pstate :=
  summarize (with_score_loop (enter st) (combine (combine fe fs) fscore)).

Definition clean_parallel (fe fs : list str) (fscore : option (list str))
    (dedup : bool) : pstate :=
  let st := fresh dedup in
  match fscore with
  | None => helper_no_score st fe fs
  | Some scores => helper_with_score st fe fs scores
  end.
End Parallel.

(** The defaults [min_score = 1.1], [max_words = 80], [max_ratio = 3.0]. *)
Definition default_min_score : float := float_of_decimal false 11 (-1).
Definition default_max_words : Z := 80.
Definition default_max_ratio : float := float_of_decimal false 30 (-1).

(** *** [clean_mono_gz] *)

Record mstate := {
  m_kept : Z;
  m_dropped : Z;
  m_seen : option (gset str);
  m_processed : Z;
  m_fout : list str;
  m_stdout : list event
}.

Definition m_count (st : mstate) : mstate :=
  {| m_kept := m_kept st; m_dropped := m_dropped st; m_seen := m_seen st;
     m_processed := m_processed st + 1; m_fout := m_fout st;
     m_stdout := m_stdout st |}.

Definition m_drop (st : mstate) : mstate :=
  {| m_kept := m_kept st; m_dropped := m_dropped st + 1; m_seen := m_seen st;
     m_processed := m_processed st; m_fout := m_fout st;
     m_stdout := m_stdout st |}.

Definition m_remember (key : str) (st : mstate) : mstate :=
  {| m_kept := m_kept st; m_dropped := m_dropped st;
     m_seen := match m_seen st with
               | Some keys => Some ({[ key ]} ∪ keys)
               | None => None
               end;
     m_processed := m_processed st; m_fout := m_fout st;
     m_stdout := m_stdout st |}.

Definition m_write (s : str) (st : mstate) : mstate :=
  {| m_kept := m_kept st + 1; m_dropped := m_dropped st; m_seen := m_seen st;
     m_processed := m_processed st; m_fout := m_fout st ++ [s ++ NL];
     m_stdout := m_stdout st |}.

Definition m_print (e : event) (st : mstate) : mstate :=
  {| m_kept := m_kept st; m_dropped := m_dropped st; m_seen := m_seen st;
     m_processed := m_processed st; m_fout := m_fout st;
     m_stdout := m_stdout st ++ [e] |}.

Definition m_report (st : mstate) : mstate :=
  if (m_processed st mod 1000000 =? 0)%Z
  then m_print (Progress (m_processed st) (m_kept st) (m_dropped st)) st
  else st.

Definition m_fresh (dedup : bool) : mstate :=
  {| m_kept := 0; m_dropped := 0; m_seen := if dedup then Some ∅ else None;
     m_processed := 0; m_fout := []; m_stdout := [] |}.

Section Mono.
Context `{Unicode}.
Variable max_words : Z.

Definition mono_body (st : mstate) (line : str) : mstate * outcome :=
  let st := m_count st in
  let s := normalize line in
  if bad_line s then (m_drop st, Dropped Malformed)
  else if noisy_mono_line s then (m_drop st, Dropped Noisy)
  else if (max_words <? len (split s))%Z then (m_drop st, Dropped TooManyWords)
  else
    match m_seen st with
    | Some keys =>
      if bool_decide (s ∈ keys) then (m_drop st, Dropped Duplicate)
      else (m_report (m_write s (m_remember s st)), Written)
    | None => (m_report (m_write s st), Written)
    end.

Definition mono_loop (st : mstate) (fin : list str) : mstate :=
  fold_left (fun st line => fst (mono_body st line)) fin st.

Definition clean_mono_gz (fin : list str) (dedup : bool) : mstate :=
  let st := mono_loop (m_fresh dedup) fin in
  m_print (Summary (m_kept st) (m_dropped st)) st.
End Mono.

(** ** Reading the patterns

    What it means for a pattern to match, stated without the engine: from a
    position (whether it is the start of the text, the text ahead, the text
    of group 1) a pattern leads to the positions after its matches. *)
Section Reading.
Context `{Unicode}.

Inductive matches (ic : bool) :
  regex -> bool -> str -> option str -> bool -> str -> option str -> Prop :=
| m_eps b s g : matches ic Eps b s g b s g
| m_chr p c b s g :
    lit_match ic p c = true -> matches ic (Chr p) b (c :: s) g false s g
| m_cls neg cs c b s g :
    in_set neg cs c = true -> matches ic (Cls neg cs) b (c :: s) g false s g
| m_bol s g : matches ic Bol true s g true s g
| m_cat r1 r2 b s g b1 s1 g1 b2 s2 g2 :
    matches ic r1 b s g b1 s1 g1 -> matches ic r2 b1 s1 g1 b2 s2 g2 ->
    matches ic (Cat r1 r2) b s g b2 s2 g2
| m_alt_l r1 r2 b s g b1 s1 g1 :
    matches ic r1 b s g b1 s1 g1 -> matches ic (Alt r1 r2) b s g b1 s1 g1
| m_alt_r r1 r2 b s g b1 s1 g1 :
    matches ic r2 b s g b1 s1 g1 -> matches ic (Alt r1 r2) b s g b1 s1 g1
| m_rep_stop hi r b s g : matches ic (Rep 0 hi r) b s g b s g
| m_rep_more lo hi r b s g b1 s1 g1 b2 s2 g2 :
    hi <> Some 0 ->
    matches ic r b s g b1 s1 g1 ->
    length s1 < length s ->
    matches ic (Rep (Nat.pred lo) (option_map Nat.pred hi) r) b1 s1 g1 b2 s2 g2 ->
    matches ic (Rep lo hi r) b s g b2 s2 g2
| m_grp r b s g b1 s1 g1 :
    matches ic r b s g b1 s1 g1 ->
    matches ic (Grp r) b s g b1 s1 (Some (firstn (length s - length s1) s))
| m_ref w b s s1 :
    starts_with w s = Some s1 ->
    matches ic Ref b s (Some w) (b && is_nil w) s1 (Some w).

(** The pattern matches somewhere in the text. *)
Definition found (ic : bool) (r : regex) (s : str) : Prop :=
  exists pre post b' s' g',
    s = pre ++ post /\ matches ic r (is_nil pre) post None b' s' g'.

(** [w] is [p] up to case, as [re.IGNORECASE] compares. *)
Definition same_text (w p : str) : Prop :=
  Forall2 (fun c q => lit_match true q c = true) w p.

(** URL-like: the line contains [http://], [https://] or [www.], in any
    case. *)
Definition url_like (s : str) : Prop :=
  exists pre w post,
    s = pre ++ w ++ post /\
    (same_text w (str_of "http://") \/ same_text w (str_of "https://")
     \/ same_text w (str_of "www.")).

(** HTML-like: the line contains a tag [<...>] with a non-empty body free of
    [>], the entity [&nbsp;], or a numeric character reference [&#...;]
    with one decimal digit at least. *)
Definition html_like (s : str) : Prop :=
  exists pre w post,
    s = pre ++ w ++ post /\
    ((exists body, w = ch "<" :: body ++ [ch ">"] /\ body <> [] /\
                   Forall (fun c => c <> ch ">") body)
     \/ w = str_of "&nbsp;"
     \/ (exists ds, w = str_of "&#" ++ ds ++ [ch ";"] /\ ds <> [] /\
                    Forall (fun c => isdecimal c = true) ds)).

(** What [bad_line] rules out. *)
Definition well_formed (s : str) : Prop :=
  s <> [] /\ (exists c, In c s /\ isalpha c = true) /\
  ~ In REPLACEMENT s /\ ~ url_like s /\ ~ html_like s.
End Reading.

(** What a round does to the counters and the output files, by exit. *)
Definition pround (st st' : pstate) (o : outcome) (en sw : str) : Prop :=
  pairs st' = (pairs st + 1)%Z /\
  match o with
  | Dropped _ =>
    kept st' = kept st /\ dropped st' = (dropped st + 1)%Z /\
    oe st' = oe st /\ os st' = os st
  | Written =>
    kept st' = (kept st + 1)%Z /\ dropped st' = dropped st /\
    oe st' = oe st ++ [en ++ NL] /\ os st' = os st ++ [sw ++ NL]
  end.

Definition mround (st st' : mstate) (o : outcome) (s : str) : Prop :=
  m_processed st' = (m_processed st + 1)%Z /\
  match o with
  | Dropped _ =>
    m_kept st' = m_kept st /\ m_dropped st' = (m_dropped st + 1)%Z /\
    m_fout st' = m_fout st
  | Written =>
    m_kept st' = (m_kept st + 1)%Z /\ m_dropped st' = m_dropped st /\
    m_fout st' = m_fout st ++ [s ++ NL]
  end.

(** The engine, or a part of it, only returns what the reading allows. *)
Definition sound `{Unicode} (ic : bool) (m : bool -> str -> option str -> cont -> option str) (r : regex) : Prop :=
  forall b s g k x, m b s g k = Some x ->
    exists b1 s1 g1, matches ic r b s g b1 s1 g1 /\ k b1 s1 g1 = Some x.

(** ** The shape of the loops

    The three loops share their shape: a body that counts the record, and
    either drops it or writes its lines and counts it as kept. *)
Section LoopShape.
Context {S A : Type}.
Variables (proc nkept ndropped : S -> Z) (out1 out2 : S -> list str).
Variable body : S -> A -> S * outcome.
Variables line1 line2 : A -> str.
Variable good : A -> Prop.

Definition round_ok : Prop :=
  forall st a,
    proc (body st a).1 = (proc st + 1)%Z /\
    match (body st a).2 with
    | Dropped _ =>
      nkept (body st a).1 = nkept st /\
      ndropped (body st a).1 = (ndropped st + 1)%Z /\
      out1 (body st a).1 = out1 st /\ out2 (body st a).1 = out2 st
    | Written =>
      nkept (body st a).1 = (nkept st + 1)%Z /\
      ndropped (body st a).1 = ndropped st /\
      out1 (body st a).1 = out1 st ++ [line1 a ++ NL] /\
      out2 (body st a).1 = out2 st ++ [line2 a ++ NL] /\
      good a
    end.

Definition loop (st : S) (rows : list A) : S :=
  fold_left (fun st a => (body st a).1) rows st.
End LoopShape.

(** ** Runs

    A line is clean when its normalized form is not malformed. *)
Definition clean `{Unicode} (a : str) : Prop := bad_line (normalize a) = false.

(** The rows [zip] makes of three files. *)
Definition rows3 (fe fs fscore : list str) := combine (combine fe fs) fscore.

(** The number of records a run reads. *)
Definition records (fe fs : list str) (fscore : option (list str)) : nat :=
  match fscore with
  | None => Nat.min (length fe) (length fs)
  | Some scores => Nat.min (Nat.min (length fe) (length fs)) (length scores)
  end.

(** The pair filter as section 4.3 of the specification words it: the score
    checks when a score line is supplied, then the malformed-line check,
    the word counts, the length ratio, then the seen pairs when
    deduplication is enabled, and else keep. *)
Definition pair_filter_spec `{Unicode} (min_score : float) (max_words : Z)
    (max_ratio : float) (keys : option (gset (str * str)))
    (en_raw sw_raw : str) (score_raw : option str) : outcome :=
  let checks :=
    let en := normalize en_raw in
    let sw := normalize sw_raw in
    if bad_line en || bad_line sw then Dropped Malformed
    else if (max_words <? len (split en))%Z || (max_words <? len (split sw))%Z
    then Dropped TooManyWords
    else if flt max_ratio (length_ratio (split en) (split sw)) then Dropped BadRatio
    else match keys with
         | Some keys =>
           if bool_decide ((en, sw) ∈ keys) then Dropped Duplicate else Written
         | None => Written
         end in
  match score_raw with
  | None => checks
  | Some line =>
    match py_float (strip line) with
    | None => Dropped ScoreParse
    | Some score => if flt score min_score then Dropped ScoreLow else checks
    end
  end.

(** A state with another [seen]. *)
Definition with_seen (keys : option (gset (str * str))) (st : pstate) : pstate :=
  {| kept := kept st; dropped := dropped st; seen := keys;
     pairs := pairs st; oe := oe st; os := os st; stdout := stdout st |}.

(** The pairs written so far are the pairs in [seen], each written once. *)
Definition seen_written (st : pstate) : Prop :=
  exists (keys : gset (str * str)) (wk : list (str * str)),
    seen st = Some keys /\ base.NoDup wk /\ (forall k, k ∈ keys <-> k ∈ wk) /\
    oe st = map (fun k => k.1 ++ NL) wk /\ os st = map (fun k => k.2 ++ NL) wk.

(** A line of [n] words, for the examples. *)
Definition line_of_words (n : nat) : str :=
  concat (repeat (str_of "ab ") n) ++ NL.

(** ** Tidy lines *)

Definition is_zero_width (c : char) : bool :=
  existsb (N.eqb c) [0xFEFF; 0x200B; 0x200C; 0x200D; 0x2060]%N.
Definition is_bracket (c : char) : bool := existsb (N.eqb c) (str_of "[](){}").
Definition is_ctrl (c : char) : bool := (c <=? 0x1f)%N.

(** Whitespace only occurs as single spaces (U+0020). *)
Fixpoint single_spaced (s : str) : bool :=
  match s with
  | [] => true
  | c :: s' =>
    (if isspace c
     then (c =? 32)%N && match s' with d :: _ => negb (isspace d) | [] => true end
     else true) && single_spaced s'
  end.

(** The first character, if there is one, is not whitespace. *)
Definition head_ok (s : str) : Prop :=
  match s with c :: _ => isspace c = false | [] => True end.

Definition zero_width_free (s : str) : Prop :=
  Forall (fun c => is_zero_width c = false) s.

(** A tidy line: trimmed, single-spaced, and free of zero-width characters,
    brackets and control characters.  The lines [normalize] yields before
    it lowercases are tidy. *)
Definition tidy (s : str) : Prop :=
  strip s = s /\ single_spaced s = true /\
  Forall (fun c => is_zero_width c = false /\ is_bracket c = false /\
                   is_ctrl c = false) s.

(** What the proof of idempotence needs of the Unicode operations: NFKC
    brings in no zero-width character, lowercasing a lowercased string
    changes nothing, and lowercasing keeps a tidy line tidy. *)
Class UnicodeLaws `{Unicode} : Prop := {
  nfkc_zero_width : forall s, zero_width_free s -> zero_width_free (nfkc s);
  lower_lower : forall s, lower (lower s) = lower s;
  lower_tidy : forall s, tidy s -> tidy (lower s)
}.

(** The line starts with a decimal digit, or with a colon and a decimal
    digit: what the two leading-annotation patterns strip from a tidy
    line. *)
Definition numbered `{Unicode} (t : str) : Prop :=
  match t with
  | c :: rest =>
    isdecimal c = true \/
    (c = ch ":" /\ match rest with d :: _ => isdecimal d = true | [] => False end)
  | [] => False
  end.

(** * Properties *)

(** ** One round of a loop *)

Lemma report_fields st :
  kept (report st) = kept st /\ dropped (report st) = dropped st /\
  pairs (report st) = pairs st /\ oe (report st) = oe st /\
  os (report st) = os st /\ seen (report st) = seen st.
Proof. unfold report. by case_match. Qed.

Lemma m_report_fields st :
  m_kept (m_report st) = m_kept st /\ m_dropped (m_report st) = m_dropped st /\
  m_processed (m_report st) = m_processed st /\
  m_fout (m_report st) = m_fout st /\ m_seen (m_report st) = m_seen st.
Proof. unfold m_report. by case_match. Qed.

Ltac round_cases :=
  repeat match goal with
         | |- context [report ?st] =>
           let F := fresh in
           pose proof (report_fields st) as F; destruct F as (?&?&?&?&?&?);
           generalize dependent (report st); intros
         | |- context [m_report ?st] =>
           let F := fresh in
           pose proof (m_report_fields st) as F; destruct F as (?&?&?&?&?);
           generalize dependent (m_report st); intros
         | |- context [match ?x with _ => _ end] => destruct x eqn:?
         end.

Section Rounds.
Context `{Unicode}.
Variables (min_score : float) (max_words : Z) (max_ratio : float).

Lemma no_score_round st en_raw sw_raw :
  pround st (no_score_body max_words max_ratio st en_raw sw_raw).1
    (no_score_body max_words max_ratio st en_raw sw_raw).2
    (normalize en_raw) (normalize sw_raw).
Proof.
  unfold no_score_body, pround. round_cases; simpl in *; intuition congruence.
Qed.

Lemma with_score_round st en_raw sw_raw score_raw :
  pround st (with_score_body min_score max_words max_ratio st en_raw sw_raw score_raw).1
    (with_score_body min_score max_words max_ratio st en_raw sw_raw score_raw).2
    (normalize en_raw) (normalize sw_raw).
Proof.
  unfold with_score_body, pround. round_cases; simpl in *; intuition congruence.
Qed.

Lemma mono_round st line :
  mround st (mono_body max_words st line).1 (mono_body max_words st line).2
    (normalize line).
Proof.
  unfold mono_body, mround. round_cases; simpl in *; intuition congruence.
Qed.

(** A pair is written only if neither normalized line is malformed. *)
Lemma no_score_written st en_raw sw_raw :
  (no_score_body max_words max_ratio st en_raw sw_raw).2 = Written ->
  bad_line (normalize en_raw) = false /\ bad_line (normalize sw_raw) = false.
Proof.
  unfold no_score_body.
  destruct (bad_line (normalize en_raw)), (bad_line (normalize sw_raw));
    simpl; try discriminate; auto.
Qed.

Lemma with_score_written st en_raw sw_raw score_raw :
  (with_score_body min_score max_words max_ratio st en_raw sw_raw score_raw).2 = Written ->
  bad_line (normalize en_raw) = false /\ bad_line (normalize sw_raw) = false.
Proof.
  unfold with_score_body.
  destruct (py_float _); simpl; try discriminate.
  destruct (flt _ _); simpl; try discriminate.
  destruct (bad_line (normalize en_raw)), (bad_line (normalize sw_raw));
    simpl; try discriminate; auto.
Qed.

Lemma mono_written st line :
  (mono_body max_words st line).2 = Written ->
  bad_line (normalize line) = false.
Proof.
  unfold mono_body. destruct (bad_line (normalize line)); simpl; try discriminate; auto.
Qed.
End Rounds.

(** ** The engine against the reading *)

Section EngineFacts.
Context `{Unicode}.
Variable ic : bool.

(** A match leaves a suffix of the text. *)
Lemma starts_with_app w s s1 : starts_with w s = Some s1 -> s = w ++ s1.
Proof.
  revert s; induction w as [|a w IH]; intros [|b s]; simpl; try congruence.
  destruct (N.eqb_spec a b); try discriminate.
  intros E. subst. f_equal. auto.
Qed.

Lemma matches_suffix r b s g b1 s1 g1 :
  matches ic r b s g b1 s1 g1 -> exists w, s = w ++ s1.
Proof.
  induction 1; try (by exists []); try (by eexists [_]); try done.
  - destruct IHmatches1 as [w1 ->], IHmatches2 as [w2 ->].
    exists (w1 ++ w2). by rewrite app_assoc.
  - destruct IHmatches1 as [w1 ->], IHmatches2 as [w2 ->].
    exists (w1 ++ w2). by rewrite app_assoc.
  - exists w. by apply starts_with_app.
Qed.

Lemma matches_length r b s g b1 s1 g1 :
  matches ic r b s g b1 s1 g1 -> length s1 <= length s.
Proof. intros [w ->]%matches_suffix. rewrite length_app. lia. Qed.

Lemma rep_loop_sound m r k :
  sound ic m r ->
  forall fuel lo hi b s g x,
    rep_loop m k fuel lo hi b s g = Some x ->
    exists b1 s1 g1, matches ic (Rep lo hi r) b s g b1 s1 g1 /\ k b1 s1 g1 = Some x.
Proof.
  intros Hm. induction fuel as [|fuel IH]; intros lo hi b s g x.
  - simpl. destruct lo; [|done]. intros E. exists b, s, g. split; [apply m_eps || apply m_rep_stop|done].
  - assert (Hstop : match lo with 0 => k b s g | S _ => None end = Some x ->
      exists b1 s1 g1, matches ic (Rep lo hi r) b s g b1 s1 g1 /\ k b1 s1 g1 = Some x).
    { destruct lo; [|done]. intros E. exists b, s, g. split; [apply m_eps || apply m_rep_stop|done]. }
    simpl. destruct hi as [[|h]|].
    + done.
    + destruct (m b s g _) as [y|] eqn:E; [|done].
      intros [= ->]. apply Hm in E as (b1 & s1 & g1 & M & E).
      destruct (Nat.ltb_spec (length s1) (length s)); [|done].
      apply IH in E as (b2 & s2 & g2 & M2 & E).
      exists b2, s2, g2. split; [|done]. by eapply m_rep_more.
    + destruct (m b s g _) as [y|] eqn:E; [|done].
      intros [= ->]. apply Hm in E as (b1 & s1 & g1 & M & E).
      destruct (Nat.ltb_spec (length s1) (length s)); [|done].
      apply IH in E as (b2 & s2 & g2 & M2 & E).
      exists b2, s2, g2. split; [|done]. by eapply m_rep_more.
Qed.

Lemma rmatch_sound r : sound ic (rmatch ic r) r.
Proof.
  induction r; intros b s g k x; simpl.
  - intros E. exists b, s, g. split; [apply m_eps || apply m_rep_stop|done].
  - destruct s as [|a s]; [done|]. destruct (lit_match ic c a) eqn:L; [|done].
    intros E. exists false, s, g. split; [by apply m_chr|done].
  - destruct s as [|a s]; [done|]. destruct (in_set neg cs a) eqn:L; [|done].
    intros E. exists false, s, g. split; [by apply m_cls|done].
  - destruct b; [|done]. intros E. exists true, s, g. split; [apply m_bol|done].
  - intros (b1 & s1 & g1 & M1 & (b2 & s2 & g2 & M2 & E)%IHr2)%IHr1.
    exists b2, s2, g2. split; [by eapply m_cat|done].
  - destruct (rmatch ic r1 b s g k) as [y|] eqn:E1.
    + intros [= ->]. apply IHr1 in E1 as (b1 & s1 & g1 & M & E).
      exists b1, s1, g1. split; [by apply m_alt_l|done].
    + intros (b1 & s1 & g1 & M & E)%IHr2.
      exists b1, s1, g1. split; [by apply m_alt_r|done].
  - by apply rep_loop_sound.
  - intros (b1 & s1 & g1 & M & E)%IHr. eexists _, _, _. split; [by eapply m_grp|done].
  - destruct g as [w|]; [|done]. destruct (starts_with w s) as [s1|] eqn:S; [|done].
    intros E. eexists _, _, _. split; [by eapply m_ref|]. done.
Qed.

(** Conversely the engine finds a match whenever the reading has one that
    the continuation accepts. *)
Lemma rmatch_complete r b s g b1 s1 g1 :
  matches ic r b s g b1 s1 g1 ->
  forall k, is_Some (k b1 s1 g1) ->
    is_Some (rmatch ic r b s g k) /\
    forall lo hi r1 fuel, r = Rep lo hi r1 -> length s <= fuel ->
      is_Some (rep_loop (rmatch ic r1) k fuel lo hi b s g).
Proof.
  induction 1; intros k Hk;
    (split; [|try (intros ???? E; discriminate E)]); simpl.
  - done.
  - by rewrite H0.
  - by rewrite H0.
  - done.
  - apply IHmatches1. by apply IHmatches2.
  - destruct (IHmatches k Hk) as [[y ->] _]. done.
  - destruct (rmatch ic r1 b s g k); [done|]. by apply IHmatches.
  - destruct s; simpl; [done|]. destruct hi as [[|?]|]; try done;
      destruct (rmatch ic r _ _ _ _); done.
  - intros lo hi' r1 fuel [= <- <- <-] Hf.
    destruct fuel; simpl; [done|]. destruct hi as [[|?]|]; try done;
      destruct (rmatch ic r _ _ _ _); done.
  - destruct (IHmatches2 k Hk) as [_ IH2].
    destruct s as [|a s]; [simpl in *; lia|]. simpl.
    assert (Hc : is_Some (rmatch ic r b (a :: s) g
      (fun b' s' g' => if (length s' <? length (a :: s))%nat
         then rep_loop (rmatch ic r) k (length s) (Nat.pred lo) (option_map Nat.pred hi) b' s' g'
         else None))).
    { apply IHmatches1. destruct (Nat.ltb_spec (length s1) (length (a :: s))); [|lia].
      eapply IH2; [done|]. simpl in *; lia. }
    destruct Hc as [y Hc]. simpl in Hc.
    destruct hi as [[|?]|]; [done| |]; by rewrite Hc.
  - intros lo' hi' r1 fuel [= <- <- <-] Hf.
    destruct (IHmatches2 k Hk) as [_ IH2].
    destruct fuel as [|fuel]; [lia|]. simpl.
    assert (Hc : is_Some (rmatch ic r b s g
      (fun b' s' g' => if (length s' <? length s)%nat
         then rep_loop (rmatch ic r) k fuel (Nat.pred lo) (option_map Nat.pred hi) b' s' g'
         else None))).
    { apply IHmatches1. destruct (Nat.ltb_spec (length s1) (length s)); [|lia].
      eapply IH2; [done|]. lia. }
    destruct Hc as [y Hc].
    destruct hi as [[|?]|]; [done| |]; by rewrite Hc.
  - by apply IHmatches.
  - by rewrite H0.
Qed.

End EngineFacts.

(** ** Searching *)

Section Searching.
Context `{Unicode}.
Variable ic : bool.

Lemma match_at_matches r b s :
  is_Some (match_at ic r b s) <-> exists b' s' g', matches ic r b s None b' s' g'.
Proof.
  unfold match_at. split.
  - intros [x (b' & s' & g' & M & _)%rmatch_sound]. eauto.
  - intros (b' & s' & g' & M). by eapply rmatch_complete.
Qed.

Lemma match_at_rest r b s rest :
  match_at ic r b s = Some rest -> exists w, s = w ++ rest.
Proof.
  unfold match_at. intros (b' & s' & g' & M & [= <-])%rmatch_sound.
  by eapply matches_suffix.
Qed.

Lemma search_from_found r b s :
  search_from ic r b s = true <->
  exists pre post b' s' g',
    s = pre ++ post /\ matches ic r (b && is_nil pre) post None b' s' g'.
Proof.
  revert b. induction s as [|c s IH]; intros b; simpl.
  - destruct (match_at ic r b []) as [x|] eqn:E.
    + split; [intros _|done].
      destruct (proj1 (match_at_matches r b [])) as (b' & s' & g' & M); [by rewrite E|].
      exists [], [], b', s', g'. by rewrite andb_true_r.
    + split; [done|]. intros (pre & post & b' & s' & g' & E' & M).
      symmetry in E'. apply app_eq_nil in E' as [-> ->]. rewrite andb_true_r in M.
      assert (is_Some (match_at ic r b [])) as [? ?] by (apply match_at_matches; eauto).
      congruence.
  - destruct (match_at ic r b (c :: s)) as [x|] eqn:E.
    + split; [intros _|done].
      destruct (proj1 (match_at_matches r b (c :: s))) as (b' & s' & g' & M); [by rewrite E|].
      exists [], (c :: s), b', s', g'. by rewrite andb_true_r.
    + rewrite IH. split.
      * intros (pre & post & b' & s' & g' & -> & M).
        exists (c :: pre), post, b', s', g'. simpl in *. by rewrite andb_false_r.
      * intros (pre & post & b' & s' & g' & E' & M). destruct pre as [|c' pre].
        -- simpl in *. subst post. rewrite andb_true_r in M.
           assert (is_Some (match_at ic r b (c :: s))) as [? ?]
             by (apply match_at_matches; eauto).
           congruence.
        -- simpl in *. injection E' as -> ->. rewrite andb_false_r in M.
           exists pre, post, b', s', g'. done.
Qed.

Lemma search_found r s : search ic r s = true <-> found ic r s.
Proof. unfold search, found. rewrite search_from_found. by setoid_rewrite andb_true_l. Qed.

(** *** Reading the constructors *)

Lemma matches_eps b s g b' s' g' :
  matches ic Eps b s g b' s' g' <-> b' = b /\ s' = s /\ g' = g.
Proof. split; [by inversion 1|intros (-> & -> & ->); constructor]. Qed.

Lemma matches_chr p b s g b' s' g' :
  matches ic (Chr p) b s g b' s' g' <->
  exists c, s = c :: s' /\ lit_match ic p c = true /\ b' = false /\ g' = g.
Proof.
  split; [inversion 1; subst; eauto|].
  intros (c & -> & L & -> & ->). by constructor.
Qed.

Lemma matches_cls neg cs b s g b' s' g' :
  matches ic (Cls neg cs) b s g b' s' g' <->
  exists c, s = c :: s' /\ in_set neg cs c = true /\ b' = false /\ g' = g.
Proof.
  split; [inversion 1; subst; eauto|].
  intros (c & -> & L & -> & ->). by constructor.
Qed.

Lemma matches_cat r1 r2 b s g b' s' g' :
  matches ic (Cat r1 r2) b s g b' s' g' <->
  exists b1 s1 g1, matches ic r1 b s g b1 s1 g1 /\ matches ic r2 b1 s1 g1 b' s' g'.
Proof.
  split; [inversion 1; subst; eauto|].
  intros (b1 & s1 & g1 & M1 & M2). by eapply m_cat.
Qed.

Lemma matches_alt r1 r2 b s g b' s' g' :
  matches ic (Alt r1 r2) b s g b' s' g' <->
  matches ic r1 b s g b' s' g' \/ matches ic r2 b s g b' s' g'.
Proof.
  split; [inversion 1; subst; eauto|].
  intros [M|M]; [by apply m_alt_l|by apply m_alt_r].
Qed.

Lemma matches_grp r b s g b' s' g' :
  matches ic (Grp r) b s g b' s' g' <->
  exists g1, matches ic r b s g b' s' g1 /\
             g' = Some (firstn (length s - length s') s).
Proof.
  split; [inversion 1; subst; eauto|].
  intros (g1 & M & ->). by eapply m_grp.
Qed.

Lemma matches_bol b s g b' s' g' :
  matches ic Bol b s g b' s' g' <-> b = true /\ b' = true /\ s' = s /\ g' = g.
Proof. split; [by inversion 1|intros (-> & -> & -> & ->); constructor]. Qed.

Lemma matches_opt r b s g b' s' g' :
  matches ic (opt r) b s g b' s' g' <->
  (b' = b /\ s' = s /\ g' = g) \/
  (matches ic r b s g b' s' g' /\ length s' < length s).
Proof.
  unfold opt. split.
  - inversion 1; subst; [by left|]. right.
    match goal with M : matches _ (Rep _ _ _) _ _ _ _ _ _ |- _ => inversion M; subst end;
      [done|]. simpl in *. congruence.
  - intros [(-> & -> & ->)|[M L]]; [apply m_rep_stop|].
    eapply m_rep_more; [done|exact M|done|]. apply m_rep_stop.
Qed.

(** A greedy run over a character set. *)
Lemma matches_run lo neg cs b s g b' s' g' :
  matches ic (Rep lo None (Cls neg cs)) b s g b' s' g' <->
  exists w, s = w ++ s' /\ Forall (fun c => in_set neg cs c = true) w /\
            lo <= length w /\ b' = b && is_nil w /\ g' = g.
Proof.
  split.
  - remember (Rep lo None (Cls neg cs)) as r eqn:Er. intros M. revert lo Er.
    induction M; intros lo' Er; try discriminate.
    + injection Er as <- _ _. exists []. by rewrite andb_true_r.
    + injection Er as -> -> ->.
      apply matches_cls in M1 as (c & -> & L & -> & ->).
      destruct (IHM2 (Nat.pred lo') eq_refl) as (w & -> & F & Hl & -> & ->).
      exists (c :: w). simpl. rewrite andb_false_r. repeat split; auto. lia.
  - intros (w & -> & F & Hl & -> & ->). revert lo b Hl.
    induction F as [|c w Hc F IH]; intros lo b Hl.
    + simpl in *. assert (lo = 0) as -> by lia. rewrite andb_true_r. apply m_rep_stop.
    + simpl. rewrite andb_false_r.
      eapply m_rep_more with (b1 := false) (s1 := w ++ s') (g1 := g); [done| | |].
      * by apply m_cls.
      * simpl. lia.
      * specialize (IH (Nat.pred lo) false). simpl in *. apply IH. lia.
Qed.

Lemma matches_lit p b s g b' s' g' :
  matches ic (lit p) b s g b' s' g' <->
  exists w, s = w ++ s' /\ Forall2 (fun c q => lit_match ic q c = true) w p /\
            b' = b && is_nil p /\ g' = g.
Proof.
  unfold lit. revert b s. induction p as [|q p IH]; intros b s.
  - simpl. rewrite matches_eps, andb_true_r. split.
    + intros (-> & -> & ->). exists []. repeat split; auto.
    + intros (w & -> & F & -> & ->). by inversion F.
  - destruct p as [|q2 p].
    + simpl. rewrite matches_chr, andb_false_r. split.
      * intros (c & -> & L & -> & ->). exists [c]. repeat split; auto.
      * intros (w & -> & F & -> & ->). inversion F as [|c ? w' ? L F']; subst.
        inversion F'; subst. eauto.
    + change (cat (map Chr (q :: q2 :: p))) with (Cat (Chr q) (cat (map Chr (q2 :: p)))).
      rewrite matches_cat, andb_false_r. split.
      * intros (b1 & s1 & g1 & (c & -> & L & -> & ->)%matches_chr & M).
        apply IH in M as (w & -> & F & -> & ->). exists (c :: w). repeat split; auto.
      * intros (w & -> & F & -> & ->). inversion F as [|c ? w' ? L F']; subst.
        exists false, (w' ++ s'), g. split; [apply matches_chr; eauto|].
        apply IH. exists w'. repeat split; auto.
Qed.
End Searching.

(** ** The two patterns of [bad_line] *)

Section BadLine.
Context `{Unicode}.

Lemma same_text_app w1 w2 p1 p2 :
  same_text w1 p1 -> same_text w2 p2 -> same_text (w1 ++ w2) (p1 ++ p2).
Proof. apply Forall2_app. Qed.

Lemma same_text_split w p1 p2 :
  same_text w (p1 ++ p2) ->
  exists w1 w2, w = w1 ++ w2 /\ same_text w1 p1 /\ same_text w2 p2.
Proof.
  intros (w1 & w2 & F1 & F2 & ->)%Forall2_app_inv_r. eauto.
Qed.

Lemma same_text_one w q :
  same_text w [q] <-> exists c, w = [c] /\ lit_match true q c = true.
Proof.
  split.
  - inversion 1 as [|c ? w' ? L F']; subst. inversion F'; subst. eauto.
  - intros (c & -> & L). by repeat constructor.
Qed.

Lemma urlish_found s : found true URLISH s <-> url_like s.
Proof.
  unfold found, url_like, URLISH. cbn [cat]. split.
  - intros (pre & post & b' & s' & g' & -> & M).
    apply matches_grp in M as (g1 & M & _).
    apply matches_alt in M as [M|M].
    + apply matches_cat in M as (b1 & s1 & g2 & M1 & M).
      apply matches_cat in M as (b2 & s2 & g3 & M2 & M3).
      apply matches_lit in M1 as (w1 & -> & F1 & _).
      apply matches_opt in M2 as [(_ & -> & _)|[M2 _]].
      * apply matches_lit in M3 as (w3 & -> & F3 & _).
        exists pre, (w1 ++ w3), s'. rewrite <-!app_assoc. split; [done|].
        left. by apply (same_text_app _ _ (str_of "http") (str_of "://")).
      * apply matches_chr in M2 as (c & -> & L & _).
        apply matches_lit in M3 as (w3 & -> & F3 & _).
        exists pre, (w1 ++ [c] ++ w3), s'. rewrite <-!app_assoc. split; [done|].
        right; left.
        apply (same_text_app _ _ (str_of "http") (str_of "s://")); [done|].
        apply (same_text_app _ _ (str_of "s") (str_of "://")); [|done].
        apply same_text_one. eauto.
    + apply matches_cat in M as (b1 & s1 & g2 & M1 & M2).
      apply matches_lit in M1 as (w1 & -> & F1 & _).
      apply matches_chr in M2 as (c & -> & L & _).
      exists pre, (w1 ++ [c]), s'. rewrite <-!app_assoc. split; [done|].
      right; right.
      apply (same_text_app _ _ (str_of "www") (str_of ".")); [done|].
      apply same_text_one. eauto.
  - intros (pre & w & post & -> & [F|[F|F]]).
    + apply (same_text_split _ (str_of "http") (str_of "://")) in F
        as (w1 & w3 & -> & F1 & F3).
      exists pre, ((w1 ++ w3) ++ post). eexists _, post, _. split; [done|].
      apply matches_grp. eexists. split; [|done]. apply matches_alt. left.
      apply matches_cat. eexists _, (w3 ++ post), _. split.
      { apply matches_lit. exists w1. rewrite <-app_assoc. eauto. }
      apply matches_cat. eexists _, (w3 ++ post), _. split.
      { apply matches_opt. left. eauto. }
      apply matches_lit. exists w3. eauto.
    + apply (same_text_split _ (str_of "http") (str_of "s://")) in F
        as (w1 & w23 & -> & F1 & F).
      apply (same_text_split _ (str_of "s") (str_of "://")) in F
        as (w2 & w3 & -> & F2 & F3).
      apply same_text_one in F2 as (c & -> & L).
      exists pre, ((w1 ++ [c] ++ w3) ++ post). eexists _, post, _. split; [done|].
      apply matches_grp. eexists. split; [|done]. apply matches_alt. left.
      apply matches_cat. eexists _, (c :: w3 ++ post), _. split.
      { apply matches_lit. exists w1. rewrite <-app_assoc. eauto. }
      apply matches_cat. eexists _, (w3 ++ post), _. split.
      { apply matches_opt. right. split; [|simpl; lia]. apply matches_chr. eauto. }
      apply matches_lit. exists w3. eauto.
    + apply (same_text_split _ (str_of "www") (str_of ".")) in F
        as (w1 & w2 & -> & F1 & F2).
      apply same_text_one in F2 as (c & -> & L).
      exists pre, ((w1 ++ [c]) ++ post). eexists _, post, _. split; [done|].
      apply matches_grp. eexists. split; [|done]. apply matches_alt. right.
      apply matches_cat. eexists _, (c :: post), _. split.
      { apply matches_lit. exists w1. rewrite <-app_assoc. eauto. }
      apply matches_chr. eauto.
Qed.

Lemma lit_match_exact p c : lit_match false p c = true <-> c = p.
Proof. unfold lit_match. simpl. apply N.eqb_eq. Qed.

Lemma exact_text w p :
  Forall2 (fun c q => lit_match false q c = true) w p <-> w = p.
Proof.
  split.
  - induction 1 as [|c q w p L F IH]; [done|]. apply lit_match_exact in L. congruence.
  - intros ->. induction p; constructor; auto. by apply lit_match_exact.
Qed.

Lemma not_gt_set c : in_set true [CChar (ch ">")] c = true <-> c <> ch ">".
Proof.
  unfold in_set. cbn [existsb cset_mem]. rewrite orb_false_r.
  destruct (N.eqb_spec c (ch ">")); simpl; split; congruence.
Qed.

Lemma digit_set c : in_set false [CDigit] c = isdecimal c.
Proof. unfold in_set. simpl. by rewrite orb_false_r. Qed.

Lemma htmlish_found s : found false HTMLISH s <-> html_like s.
Proof.
  unfold found, html_like, HTMLISH, plus, digit. cbn [cat]. split.
  - intros (pre & post & b' & s' & g' & -> & M).
    apply matches_grp in M as (g1 & M & _).
    apply matches_alt in M as [M|M]; [|apply matches_alt in M as [M|M]].
    + apply matches_cat in M as (b1 & s1 & g2 & M1 & M).
      apply matches_cat in M as (b2 & s2 & g3 & M2 & M3).
      apply matches_chr in M1 as (c1 & -> & ->%lit_match_exact & _).
      apply matches_chr in M3 as (c3 & -> & ->%lit_match_exact & _).
      apply matches_run in M2 as (body & -> & F & Hl & _).
      exists pre, (ch "<" :: body ++ [ch ">"]), s'. split.
      { simpl. by rewrite <-app_assoc. }
      left. exists body. split; [done|]. split.
      * intros ->. simpl in Hl. lia.
      * revert F. apply Forall_impl. intros c. apply not_gt_set.
    + apply matches_lit in M as (w & -> & ->%exact_text & _).
      exists pre, (str_of "&nbsp;"), s'. auto.
    + apply matches_cat in M as (b1 & s1 & g2 & M1 & M).
      apply matches_cat in M as (b2 & s2 & g3 & M2 & M3).
      apply matches_lit in M1 as (w & -> & ->%exact_text & _).
      apply matches_chr in M3 as (c3 & -> & ->%lit_match_exact & _).
      apply matches_run in M2 as (ds & -> & F & Hl & _).
      exists pre, (str_of "&#" ++ ds ++ [ch ";"]), s'. split.
      { by rewrite <-!app_assoc. }
      right; right. exists ds. split; [done|]. split.
      * intros ->. simpl in Hl. lia.
      * revert F. apply Forall_impl. intros c Hc. by rewrite digit_set in Hc.
  - intros (pre & w & post & -> & [(body & -> & Hne & F)|[->|(ds & -> & Hne & F)]]).
    + exists pre, ((ch "<" :: body ++ [ch ">"]) ++ post). eexists _, post, _.
      split; [done|]. apply matches_grp. eexists. split; [|done].
      apply matches_alt. left.
      apply matches_cat. eexists _, (body ++ ch ">" :: post), _. split.
      { apply matches_chr. exists (ch "<"). simpl. rewrite <-app_assoc.
        repeat split; auto; try by apply lit_match_exact. }
      apply matches_cat. eexists _, (ch ">" :: post), _. split.
      { apply matches_run. exists body. repeat split; auto.
        - revert F. apply Forall_impl. intros c. apply not_gt_set.
        - destruct body; [done|simpl; lia]. }
      apply matches_chr. exists (ch ">"). repeat split; auto; try by apply lit_match_exact.
    + exists pre, (str_of "&nbsp;" ++ post). eexists _, post, _.
      split; [done|]. apply matches_grp. eexists. split; [|done].
      apply matches_alt. right. apply matches_alt. left.
      apply matches_lit. exists (str_of "&nbsp;"). repeat split; auto; try by apply exact_text.
    + exists pre, ((str_of "&#" ++ ds ++ [ch ";"]) ++ post). eexists _, post, _.
      split; [done|]. apply matches_grp. eexists. split; [|done].
      apply matches_alt. right. apply matches_alt. right.
      apply matches_cat. eexists _, (ds ++ ch ";" :: post), _. split.
      { apply matches_lit. exists (str_of "&#"). rewrite <-!app_assoc.
        repeat split; auto; try by apply exact_text. }
      apply matches_cat. eexists _, (ch ";" :: post), _. split.
      { apply matches_run. exists ds. repeat split; auto.
        - revert F. apply Forall_impl. intros c. by rewrite digit_set.
        - destruct ds; [done|simpl; lia]. }
      apply matches_chr. exists (ch ";"). repeat split; auto; try by apply lit_match_exact.
Qed.

Lemma existsb_In_N (c : char) s : existsb (N.eqb c) s = true <-> In c s.
Proof.
  rewrite existsb_exists. split.
  - intros (x & Hx & ->%N.eqb_eq). done.
  - intros Hc. exists c. by rewrite N.eqb_refl.
Qed.

Lemma bad_line_false s : bad_line s = false <-> well_formed s.
Proof.
  unfold bad_line, well_formed.
  rewrite <-urlish_found, <-htmlish_found, <-!search_found.
  rewrite <-(existsb_In_N REPLACEMENT), <-(existsb_exists isalpha).
  destruct s as [|c s]; [intuition congruence|].
  destruct (existsb (N.eqb REPLACEMENT) _), (search true URLISH _),
    (search false HTMLISH _), (existsb isalpha _); simpl; intuition congruence.
Qed.

(** [bad_line], case by case as it is written. *)
Lemma bad_line_true s :
  bad_line s = true <->
  s = [] \/ In REPLACEMENT s \/ url_like s \/ html_like s \/
  (forall c, In c s -> isalpha c = false).
Proof.
  unfold bad_line.
  rewrite <-urlish_found, <-htmlish_found, <-!search_found.
  rewrite <-(existsb_In_N REPLACEMENT).
  assert (existsb isalpha s = false <-> forall c, In c s -> isalpha c = false) as <-.
  { rewrite <-not_true_iff_false, existsb_exists. split.
    - intros Hn c Hc. apply not_true_iff_false. intros E. apply Hn. eauto.
    - intros Ha (c & Hc & E). rewrite (Ha c Hc) in E. done. }
  destruct s as [|c s]; [intuition congruence|].
  destruct (existsb (N.eqb REPLACEMENT) _), (search true URLISH _),
    (search false HTMLISH _), (existsb isalpha _); simpl; intuition congruence.
Qed.
End BadLine.

(** ** Loops *)

Section Loop.
Context {S A : Type}.
Variables (proc nkept ndropped : S -> Z) (out1 out2 : S -> list str).
Variable body : S -> A -> S * outcome.
Variables line1 line2 : A -> str.
Variable good : A -> Prop.
Hypothesis Hbody : round_ok proc nkept ndropped out1 out2 body line1 line2 good.


Lemma loop_counters st rows :
  proc (loop body st rows) = (proc st + len rows)%Z /\
  (nkept (loop body st rows) + ndropped (loop body st rows)
   = nkept st + ndropped st + len rows)%Z.
Proof.
  unfold loop, len. revert st. induction rows as [|a rows IH]; intros st.
  - simpl. lia.
  - cbn [fold_left length]. destruct (IH (body st a).1) as [-> ->].
    destruct (Hbody st a) as [-> Hb].
    destruct (body st a).2; destruct Hb as (-> & -> & _); lia.
Qed.

(** The rows that were written, each with its index in the input: the
    indices increase, and the two output files hold the lines of these rows
    in this order. *)
Lemma loop_outputs st rows :
  exists ks : list (nat * A),
    StronglySorted lt (map fst ks) /\
    Forall (fun k => rows !! k.1 = Some k.2 /\ good k.2) ks /\
    out1 (loop body st rows) = out1 st ++ map (fun k => line1 k.2 ++ NL) ks /\
    out2 (loop body st rows) = out2 st ++ map (fun k => line2 k.2 ++ NL) ks.
Proof.
  unfold loop. revert st. induction rows as [|a rows IH]; intros st.
  - exists []. simpl. rewrite !app_nil_r. repeat split; constructor.
  - cbn [fold_left]. destruct (IH (body st a).1) as (ks & Hs & Hk & -> & ->).
    set (up := fun k : nat * A => (Datatypes.S k.1, k.2)).
    assert (Hup : map fst (map up ks) = map Datatypes.S (map fst ks)).
    { rewrite !map_map. done. }
    assert (Hs' : StronglySorted lt (map fst (map up ks))).
    { rewrite Hup. clear -Hs. induction Hs as [|i l Hs IH Hi]; simpl; constructor; auto.
      rewrite Forall_map. revert Hi. apply Forall_impl. intros; lia. }
    assert (Hk' : Forall (fun k => (a :: rows) !! k.1 = Some k.2 /\ good k.2) (map up ks)).
    { rewrite Forall_map. revert Hk. apply Forall_impl. intros [i x]; simpl. done. }
    assert (Hl : forall f : A -> str,
               map (fun k => f k.2 ++ NL) (map up ks) = map (fun k => f k.2 ++ NL) ks).
    { intros f. rewrite map_map. done. }
    destruct (Hbody st a) as [_ Hb]. destruct (body st a).2.
    + destruct Hb as (_ & _ & -> & ->). exists (map up ks). by rewrite !Hl.
    + destruct Hb as (_ & _ & -> & -> & Hg). exists ((0, a) :: map up ks).
      rewrite <-!app_assoc. cbn [map fst snd app]. rewrite !Hl.
      split; [|split; [|done]].
      * constructor; [done|]. rewrite Hup, Forall_map. apply Forall_forall. intros; lia.
      * constructor; [done|]. done.
Qed.
End Loop.

(** ** Runs of the drivers *)

Lemma combine_lookup {A B} (l1 : list A) (l2 : list B) i a b :
  combine l1 l2 !! i = Some (a, b) <-> l1 !! i = Some a /\ l2 !! i = Some b.
Proof.
  revert l2 i. induction l1 as [|x l1 IH]; intros [|y l2] [|i]; simpl;
    try (split; [done|intros [? ?]; done]).
  - split; [intros [= -> ->]; done|intros [[= ->] [= ->]]; done].
  - apply IH.
Qed.

Lemma lookup_In {A} (l : list A) i a : l !! i = Some a -> In a l.
Proof. intros Hl. apply list_elem_of_In. by eapply list_elem_of_lookup_2. Qed.

Section Drivers.
Context `{Unicode}.
Variables (min_score : float) (max_words : Z) (max_ratio : float).

Lemma no_score_shape :
  round_ok pairs kept dropped oe os
    (fun st (a : str * str) => no_score_body max_words max_ratio st a.1 a.2)
    (fun a => normalize a.1) (fun a => normalize a.2)
    (fun a => clean a.1 /\ clean a.2).
Proof.
  intros st [en sw]. cbn [fst snd].
  pose proof (no_score_round max_words max_ratio st en sw) as [Hp Hr].
  pose proof (no_score_written max_words max_ratio st en sw) as Hw.
  split; [done|]. destruct (no_score_body _ _ _ _ _).2; intuition.
Qed.

Lemma with_score_shape :
  round_ok pairs kept dropped oe os
    (fun st (a : str * str * str) =>
       with_score_body min_score max_words max_ratio st a.1.1 a.1.2 a.2)
    (fun a => normalize a.1.1) (fun a => normalize a.1.2)
    (fun a => clean a.1.1 /\ clean a.1.2).
Proof.
  intros st [[en sw] sc]. cbn [fst snd].
  pose proof (with_score_round min_score max_words max_ratio st en sw sc) as [Hp Hr].
  pose proof (with_score_written min_score max_words max_ratio st en sw sc) as Hw.
  split; [done|]. destruct (with_score_body _ _ _ _ _ _ _).2; intuition.
Qed.

Lemma mono_shape :
  round_ok m_processed m_kept m_dropped m_fout m_fout
    (mono_body max_words) normalize normalize clean.
Proof.
  intros st line.
  pose proof (mono_round max_words st line) as [Hp Hr].
  pose proof (mono_written max_words st line) as Hw.
  split; [done|]. destruct (mono_body _ _ _).2; intuition.
Qed.

Lemma clean_parallel_no_score fe fs dedup :
  let st := clean_parallel min_score max_words max_ratio fe fs None dedup in
  let st' := no_score_loop max_words max_ratio (enter (fresh dedup)) (combine fe fs) in
  pairs st = pairs st' /\ kept st = kept st' /\ dropped st = dropped st' /\
  oe st = oe st' /\ os st = os st'.
Proof. done. Qed.

Lemma clean_parallel_with_score fe fs fscore dedup :
  let st := clean_parallel min_score max_words max_ratio fe fs (Some fscore) dedup in
  let st' := with_score_loop min_score max_words max_ratio (enter (fresh dedup))
               (rows3 fe fs fscore) in
  pairs st = pairs st' /\ kept st = kept st' /\ dropped st = dropped st' /\
  oe st = oe st' /\ os st = os st'.
Proof. done. Qed.

Lemma clean_parallel_counters fe fs fscore dedup :
  let st := clean_parallel min_score max_words max_ratio fe fs fscore dedup in
  pairs st = Z.of_nat (records fe fs fscore) /\
  (kept st + dropped st)%Z = pairs st.
Proof.
  destruct fscore as [scores|]; cbv zeta.
  - destruct (clean_parallel_with_score fe fs scores dedup) as (-> & -> & -> & _).
    destruct (loop_counters _ _ _ _ _ _ _ _ _ with_score_shape
                (enter (fresh dedup)) (rows3 fe fs scores)) as [Hp Hk].
    unfold with_score_loop, loop in *. rewrite Hp, Hk. unfold len, rows3.
    rewrite !length_combine. simpl. lia.
  - destruct (clean_parallel_no_score fe fs dedup) as (-> & -> & -> & _).
    destruct (loop_counters _ _ _ _ _ _ _ _ _ no_score_shape
                (enter (fresh dedup)) (combine fe fs)) as [Hp Hk].
    unfold no_score_loop, loop in *. rewrite Hp, Hk. unfold len. rewrite !length_combine.
    simpl. lia.
Qed.

Lemma clean_mono_gz_counters fin dedup :
  let st := clean_mono_gz max_words fin dedup in
  m_processed st = len fin /\ (m_kept st + m_dropped st)%Z = m_processed st.
Proof.
  cbv zeta. unfold clean_mono_gz. cbn [m_print m_processed m_kept m_dropped].
  destruct (loop_counters _ _ _ _ _ _ _ _ _ mono_shape (m_fresh dedup) fin) as [Hp Hk].
  unfold mono_loop, loop in *. rewrite Hp, Hk. simpl. lia.
Qed.

(** The written rows of a run of [clean_parallel]. *)
Lemma clean_parallel_outputs fe fs fscore dedup :
  let st := clean_parallel min_score max_words max_ratio fe fs fscore dedup in
  exists ks : list (nat * (str * str)),
    StronglySorted lt (map fst ks) /\
    Forall (fun k => fe !! k.1 = Some k.2.1 /\ fs !! k.1 = Some k.2.2 /\
                     clean k.2.1 /\ clean k.2.2) ks /\
    oe st = map (fun k => normalize k.2.1 ++ NL) ks /\
    os st = map (fun k => normalize k.2.2 ++ NL) ks.
Proof.
  destruct fscore as [scores|]; cbv zeta.
  - destruct (clean_parallel_with_score fe fs scores dedup) as (_ & _ & _ & -> & ->).
    destruct (loop_outputs _ _ _ _ _ _ _ _ _ with_score_shape
                (enter (fresh dedup)) (rows3 fe fs scores)) as (ks & Hs & Hk & Ho & Ho').
    exists (map (fun k => (k.1, k.2.1)) ks). rewrite !map_map. cbn [fst snd].
    split; [done|]. split.
    + rewrite Forall_map. revert Hk. apply Forall_impl.
      intros [i [[en sw] sc]]; cbn [fst snd]. unfold rows3.
      intros [[[? ?]%combine_lookup _]%combine_lookup [? ?]]. done.
    + unfold with_score_loop, loop in *. rewrite Ho, Ho'. done.
  - destruct (clean_parallel_no_score fe fs dedup) as (_ & _ & _ & -> & ->).
    destruct (loop_outputs _ _ _ _ _ _ _ _ _ no_score_shape
                (enter (fresh dedup)) (combine fe fs)) as (ks & Hs & Hk & Ho & Ho').
    exists ks. split; [done|]. split.
    + revert Hk. apply Forall_impl.
      intros [i [en sw]]; cbn [fst snd]. intros [[? ?]%combine_lookup [? ?]]. done.
    + unfold no_score_loop, loop in *. rewrite Ho, Ho'. done.
Qed.

Lemma clean_mono_gz_outputs fin dedup :
  exists ks : list (nat * str),
    StronglySorted lt (map fst ks) /\
    Forall (fun k => fin !! k.1 = Some k.2 /\ clean k.2) ks /\
    m_fout (clean_mono_gz max_words fin dedup) = map (fun k => normalize k.2 ++ NL) ks.
Proof.
  unfold clean_mono_gz. cbn [m_print m_fout].
  destruct (loop_outputs _ _ _ _ _ _ _ _ _ mono_shape (m_fresh dedup) fin)
    as (ks & Hs & Hk & Ho & _).
  exists ks. unfold mono_loop, loop in *. rewrite Ho. done.
Qed.
End Drivers.

(** ** The pair filter *)

Section Filter.
Context `{Unicode}.
Variables (min_score : float) (max_words : Z) (max_ratio : float).

(** Without scores the body is the filter of the specification. *)
Lemma no_score_filter st en_raw sw_raw :
  (no_score_body max_words max_ratio st en_raw sw_raw).2
  = pair_filter_spec min_score max_words max_ratio (seen st) en_raw sw_raw None.
Proof.
  unfold no_score_body, pair_filter_spec. cbn [seen count_pair].
  repeat case_match; done.
Qed.

(** With scores the body is the filter of the specification with
    deduplication disabled, whatever [seen] is. *)
Lemma with_score_filter st en_raw sw_raw score_raw :
  (with_score_body min_score max_words max_ratio st en_raw sw_raw score_raw).2
  = pair_filter_spec min_score max_words max_ratio None en_raw sw_raw (Some score_raw).
Proof.
  unfold with_score_body, pair_filter_spec. repeat case_match; done.
Qed.

(** The score gate of the body. *)
Lemma score_gate st en_raw sw_raw score_raw :
  match py_float (strip score_raw) with
  | None =>
    with_score_body min_score max_words max_ratio st en_raw sw_raw score_raw
    = (drop (count_pair st), Dropped ScoreParse)
  | Some score =>
    if flt score min_score
    then with_score_body min_score max_words max_ratio st en_raw sw_raw score_raw
         = (drop (count_pair st), Dropped ScoreLow)
    else (with_score_body min_score max_words max_ratio st en_raw sw_raw score_raw).2
         = pair_filter_spec min_score max_words max_ratio None en_raw sw_raw None
  end.
Proof.
  unfold with_score_body, pair_filter_spec. repeat case_match; done.
Qed.

(** The state a dropped record leaves: only the two counters moved. *)
Lemma with_score_dropped st en_raw sw_raw score_raw why :
  (with_score_body min_score max_words max_ratio st en_raw sw_raw score_raw).2
    = Dropped why ->
  (with_score_body min_score max_words max_ratio st en_raw sw_raw score_raw).1
    = drop (count_pair st).
Proof. unfold with_score_body. repeat case_match; done. Qed.

(** The [seen] set plays no part in a run with scores. *)
Lemma with_score_body_seen st keys en_raw sw_raw score_raw :
  with_score_body min_score max_words max_ratio (with_seen keys st) en_raw sw_raw score_raw
  = (with_seen keys
       (with_score_body min_score max_words max_ratio st en_raw sw_raw score_raw).1,
     (with_score_body min_score max_words max_ratio st en_raw sw_raw score_raw).2).
Proof.
  unfold with_score_body.
  destruct (py_float _); [|done].
  destruct (flt _ min_score); [done|].
  destruct (bad_line _ || bad_line _); [done|].
  destruct ((_ <? _)%Z || (_ <? _)%Z); [done|].
  destruct (flt max_ratio _); [done|].
  unfold report. cbn [pairs write_pair count_pair kept dropped].
  destruct (_ =? _)%Z; done.
Qed.
End Filter.


Section FilterRuns.
Context `{Unicode}.
Variables (min_score : float) (max_words : Z) (max_ratio : float).

Lemma with_score_loop_seen keys st rows :
  with_score_loop min_score max_words max_ratio (with_seen keys st) rows
  = with_seen keys (with_score_loop min_score max_words max_ratio st rows).
Proof.
  unfold with_score_loop. revert st. induction rows as [|[[en sw] sc] rows IH]; intros st.
  - done.
  - cbn [fold_left fst snd]. rewrite with_score_body_seen. cbn [fst]. apply IH.
Qed.
End FilterRuns.

(** ** Deduplication without scores *)

Section Dedup.
Context `{Unicode}.
Variables (max_words : Z) (max_ratio : float).

(** What a round without scores does to [seen]. *)
Lemma no_score_body_seen st en_raw sw_raw :
  let key := (normalize en_raw, normalize sw_raw) in
  match (no_score_body max_words max_ratio st en_raw sw_raw).2, seen st with
  | Written, Some keys =>
    (key ∉ keys) /\
    seen (no_score_body max_words max_ratio st en_raw sw_raw).1 = Some ({[ key ]} ∪ keys)
  | _, _ => seen (no_score_body max_words max_ratio st en_raw sw_raw).1 = seen st
  end.
Proof.
  cbv zeta. unfold no_score_body.
  destruct (bad_line _ || bad_line _);
    [cbn [fst snd seen drop count_pair]; by destruct (seen st)|].
  destruct ((_ <? _)%Z || (_ <? _)%Z);
    [cbn [fst snd seen drop count_pair]; by destruct (seen st)|].
  destruct (flt max_ratio _);
    [cbn [fst snd seen drop count_pair]; by destruct (seen st)|].
  cbn [seen count_pair]. destruct (seen st) as [keys|] eqn:Es.
  - destruct (bool_decide_reflect ((normalize en_raw, normalize sw_raw) ∈ keys));
      cbn [fst snd]; [done|].
    split; [done|]. unfold report.
    destruct (_ =? _)%Z; cbn [seen print write_pair remember count_pair];
      rewrite ?Es; done.
  - cbn [fst snd]. unfold report.
    destruct (_ =? _)%Z; cbn [seen print write_pair remember count_pair];
      rewrite ?Es; done.
Qed.

Lemma no_score_body_seen_written st en_raw sw_raw :
  seen_written st ->
  seen_written (no_score_body max_words max_ratio st en_raw sw_raw).1.
Proof.
  intros (keys & wk & Es & Hnd & Hk & Ho & Ho').
  pose proof (no_score_body_seen st en_raw sw_raw) as Hs.
  pose proof (no_score_round max_words max_ratio st en_raw sw_raw) as [_ Hr].
  cbv zeta in Hs. rewrite Es in Hs.
  destruct (no_score_body max_words max_ratio st en_raw sw_raw).2.
  - destruct Hr as (_ & _ & Hoe & Hos). exists keys, wk.
    rewrite Hs, Hoe, Hos. done.
  - destruct Hs as [Hnew Hs]. destruct Hr as (_ & _ & Hoe & Hos).
    exists ({[ (normalize en_raw, normalize sw_raw) ]} ∪ keys),
           (wk ++ [(normalize en_raw, normalize sw_raw)]).
    split; [done|]. split; [|split; [|split]].
    + apply list.NoDup_app. split; [done|]. split; [|apply NoDup_singleton].
      intros k Hin ->%list_elem_of_singleton. apply Hnew, Hk, Hin.
    + intros k. rewrite elem_of_union, elem_of_singleton, elem_of_app,
        list_elem_of_singleton, Hk. tauto.
    + rewrite Hoe, Ho, map_app. done.
    + rewrite Hos, Ho', map_app. done.
Qed.

Lemma no_score_loop_seen_written st rows :
  seen_written st -> seen_written (no_score_loop max_words max_ratio st rows).
Proof.
  unfold no_score_loop. revert st. induction rows as [|[en sw] rows IH]; intros st Hst.
  - done.
  - cbn [fold_left]. apply IH. by apply no_score_body_seen_written.
Qed.

Lemma combine_map {A B C} (f : A -> B) (g : A -> C) l :
  combine (map f l) (map g l) = map (fun a => (f a, g a)) l.
Proof. induction l as [|a l IH]; simpl; [done|]. by rewrite IH. Qed.

(** With deduplication and no scores, no pair of lines is written twice. *)
Lemma no_score_no_duplicates min_score fe fs :
  let st := clean_parallel min_score max_words max_ratio fe fs None true in
  base.NoDup (combine (oe st) (os st)).
Proof.
  cbv zeta.
  destruct (no_score_loop_seen_written (enter (fresh true)) (combine fe fs))
    as (keys & wk & _ & Hnd & _ & Ho & Ho').
  { exists ∅, []. repeat split; try done; try constructor; set_solver. }
  destruct (clean_parallel_no_score min_score max_words max_ratio fe fs true)
    as (_ & _ & _ & -> & ->).
  rewrite Ho, Ho', combine_map.
  apply NoDup_fmap_2; [|done].
  intros [a b] [c d]; cbn [fst snd]. intros [= E1%app_inv_tail E2%app_inv_tail].
  congruence.
Qed.
End Dedup.

(** ** Trimming *)

Lemma lstrip_suffix s : exists ws, s = ws ++ lstrip s /\ Forall (fun c => isspace c = true) ws.
Proof.
  induction s as [|c s (ws & E & F)]; simpl.
  - by exists [].
  - destruct (isspace c) eqn:Ec.
    + exists (c :: ws). split; [simpl; congruence|by constructor].
    + by exists [].
Qed.

Lemma lstrip_head_ok s : head_ok (lstrip s).
Proof. induction s as [|c s IH]; simpl; [done|]. by destruct (isspace c) eqn:E. Qed.

Lemma lstrip_id s : head_ok s -> lstrip s = s.
Proof. destruct s as [|c s]; simpl; [done|]. by intros ->. Qed.

Lemma rstrip_prefix s : exists ws, s = rstrip s ++ ws /\ Forall (fun c => isspace c = true) ws.
Proof.
  unfold rstrip. destruct (lstrip_suffix (rev s)) as (ws & E & F).
  exists (rev ws). split.
  - rewrite <-rev_app_distr, <-E. by rewrite rev_involutive.
  - by apply Forall_rev.
Qed.

Lemma rstrip_id s : head_ok (rev s) -> rstrip s = s.
Proof. unfold rstrip. intros ->%lstrip_id. apply rev_involutive. Qed.

Lemma rstrip_last_ok s : head_ok (rev (rstrip s)).
Proof. unfold rstrip. rewrite rev_involutive. apply lstrip_head_ok. Qed.

Lemma rstrip_head_ok s : head_ok s -> head_ok (rstrip s).
Proof.
  destruct (rstrip_prefix s) as (ws & E & _).
  destruct (rstrip s) as [|c r]; [done|]. rewrite E. done.
Qed.

Lemma strip_id s : head_ok s -> head_ok (rev s) -> strip s = s.
Proof. unfold strip. intros ->%lstrip_id. apply rstrip_id. Qed.

Lemma strip_ok s : head_ok (strip s) /\ head_ok (rev (strip s)).
Proof.
  unfold strip. split; [|apply rstrip_last_ok].
  apply rstrip_head_ok, lstrip_head_ok.
Qed.

Lemma strip_strip s : strip (strip s) = strip s.
Proof. destruct (strip_ok s). by apply strip_id. Qed.

Lemma strip_id_inv s : strip s = s -> head_ok s /\ head_ok (rev s).
Proof. intros <-. apply strip_ok. Qed.

(** [strip] keeps a segment of the text. *)
Lemma strip_segment s : exists l r, s = l ++ strip s ++ r.
Proof.
  unfold strip. destruct (lstrip_suffix s) as (l & E & _).
  destruct (rstrip_prefix (lstrip s)) as (r & E' & _).
  exists l, r. by rewrite <-E', <-E.
Qed.

Lemma strip_Forall (P : char -> Prop) s : Forall P s -> Forall P (strip s).
Proof.
  destruct (strip_segment s) as (l & r & E). rewrite E at 1.
  intros [_ [F _]%Forall_app]%Forall_app. done.
Qed.

(** ** Single spacing *)

Lemma single_spaced_app_r a b : single_spaced (a ++ b) = true -> single_spaced b = true.
Proof.
  induction a as [|c a IH]; simpl; [done|]. intros [_ E]%andb_true_iff. auto.
Qed.

Lemma single_spaced_app_l a b : single_spaced (a ++ b) = true -> single_spaced a = true.
Proof.
  induction a as [|c a IH]; simpl; [done|]. intros [E1 E2]%andb_true_iff.
  rewrite (IH E2), andb_true_r. destruct (isspace c); [|done].
  apply andb_true_iff in E1 as [-> E1]. simpl. destruct a; [done|]. done.
Qed.

Lemma strip_single_spaced s : single_spaced s = true -> single_spaced (strip s) = true.
Proof.
  destruct (strip_segment s) as (l & r & E). rewrite E at 1.
  intros E'%single_spaced_app_r. by apply single_spaced_app_l in E'.
Qed.

(** ** Substitution *)

Section Substitution.
Context `{Unicode}.
Variable ic : bool.

(** Where the pattern matches nowhere, [sub] changes nothing. *)
Lemma sub_from_none r repl fuel b s :
  (forall b' s', match_at ic r b' s' = None) ->
  sub_from fuel ic r repl b s = s.
Proof.
  intros Hn. revert b s. induction fuel as [|fuel IH]; intros b s; cbn [sub_from]; [done|].
  rewrite Hn. destruct s as [|c s]; [done|]. by rewrite IH.
Qed.

(** A pattern made of one character set: every character of the set is
    replaced. *)
Lemma sub_from_cls neg cs repl fuel b s :
  length s <= fuel ->
  sub_from fuel ic (Cls neg cs) repl b s
  = flat_map (fun c => if in_set neg cs c then repl else [c]) s.
Proof.
  revert b s. induction fuel as [|fuel IH]; intros b [|c s] Hl; simpl in *;
    try done; try lia.
  unfold match_at. simpl. destruct (in_set neg cs c).
  - destruct (Nat.ltb_spec (length s) (S (length s))); [|lia].
    f_equal. apply IH. lia.
  - f_equal. apply IH. lia.
Qed.

Lemma sub_cls neg cs repl s :
  sub ic (Cls neg cs) repl s
  = flat_map (fun c => if in_set neg cs c then repl else [c]) s.
Proof. unfold sub. apply sub_from_cls. lia. Qed.

Lemma sub_cls_id neg cs repl s :
  Forall (fun c => in_set neg cs c = false) s -> sub ic (Cls neg cs) repl s = s.
Proof.
  rewrite sub_cls. induction 1 as [|c s Hc F IH]; simpl; [done|].
  by rewrite Hc, IH.
Qed.

(** After the substitution no character of the set is left, unless the
    replacement brings one. *)
Lemma sub_cls_clears neg cs repl s :
  Forall (fun c => in_set neg cs c = false) repl ->
  Forall (fun c => in_set neg cs c = false) (sub ic (Cls neg cs) repl s).
Proof.
  intros Hr. rewrite sub_cls. induction s as [|c s IH]; simpl; [done|].
  apply Forall_app. split; [|done].
  destruct (in_set neg cs c) eqn:E; [done|]. by constructor.
Qed.

Lemma sub_cls_Forall (P : char -> Prop) neg cs repl s :
  Forall P repl -> Forall P s -> Forall P (sub ic (Cls neg cs) repl s).
Proof.
  intros Hr. rewrite sub_cls. induction 1 as [|c s Hc F IH]; simpl; [done|].
  apply Forall_app. split; [|done]. destruct (in_set neg cs c); [done|]. by constructor.
Qed.

(** A pattern anchored at the start, with an empty replacement: the match
    at the start, if there is one, is cut off. *)
Lemma match_at_anchored r s : match_at ic (Cat Bol r) false s = None.
Proof. done. Qed.

Lemma sub_anchored r s :
  sub ic (Cat Bol r) [] s
  = match match_at ic (Cat Bol r) true s with
    | Some rest => rest
    | None => s
    end.
Proof.
  unfold sub. cbn [sub_from].
  assert (Hn : forall fuel s', sub_from fuel ic (Cat Bol r) [] false s' = s').
  { intros fuel s'. revert s'. induction fuel as [|fuel IH]; intros s'; cbn [sub_from]; [done|].
    rewrite match_at_anchored. destruct s'; [done|]. by rewrite IH. }
  destruct (match_at ic (Cat Bol r) true s) as [rest|] eqn:E.
  - destruct (Nat.ltb_spec (length rest) (length s)) as [Hl|Hl]; simpl.
    + apply Hn.
    + apply match_at_rest in E as [w ->]. rewrite length_app in Hl.
      destruct w; [|simpl in Hl; lia]. simpl. destruct rest; [done|]. by rewrite Hn.
  - destruct s; [done|]. by rewrite Hn.
Qed.

Lemma sub_anchored_suffix r s : exists w, s = w ++ sub ic (Cat Bol r) [] s.
Proof.
  rewrite sub_anchored. destruct (match_at ic (Cat Bol r) true s) as [rest|] eqn:E.
  - by eapply match_at_rest.
  - by exists [].
Qed.

Lemma sub_anchored_Forall (P : char -> Prop) r s :
  Forall P s -> Forall P (sub ic (Cat Bol r) [] s).
Proof.
  destruct (sub_anchored_suffix r s) as [w E]. rewrite E at 1.
  by intros [_ ?]%Forall_app.
Qed.

Lemma sub_anchored_id r s :
  (forall b' s' g', ~ matches ic (Cat Bol r) true s None b' s' g') ->
  sub ic (Cat Bol r) [] s = s.
Proof.
  intros Hn. rewrite sub_anchored.
  destruct (match_at ic (Cat Bol r) true s) as [rest|] eqn:E; [|done].
  destruct (proj1 (match_at_matches ic (Cat Bol r) true s)) as (b' & s' & g' & M).
  { by rewrite E. }
  by apply Hn in M.
Qed.
End Substitution.

(** ** Runs of whitespace *)

Section Spaces.
Context `{Unicode}.

Lemma space_set c : in_set false [CSpace] c = isspace c.
Proof. unfold in_set. simpl. by rewrite orb_false_r. Qed.

(** A greedy run of whitespace takes all of it. *)
Lemma rep_space_all fuel b s g :
  length s <= fuel ->
  rep_loop (rmatch false space) (fun _ s' _ => Some s') fuel 0 None b s g
  = Some (lstrip s).
Proof.
  revert b s. induction fuel as [|fuel IH]; intros b s Hl.
  - destruct s; [done|simpl in Hl; lia].
  - destruct s as [|c s]; [reflexivity|]. simpl in Hl.
    cbn [rep_loop lstrip]. unfold space at 1. cbn [rmatch]. rewrite space_set.
    destruct (isspace c); [|done].
    destruct (Nat.ltb_spec (length s) (length (c :: s))); [|simpl in *; lia].
    cbn [Nat.pred option_map]. rewrite IH by lia. done.
Qed.

Lemma match_at_spaces b s :
  match_at false SPACES b s
  = match s with
    | c :: s' => if isspace c then Some (lstrip s') else None
    | [] => None
    end.
Proof.
  unfold match_at, SPACES, plus. destruct s as [|c s]; [done|].
  cbn [rmatch length rep_loop]. unfold space at 1. cbn [rmatch]. rewrite space_set.
  destruct (isspace c); [|done].
  cbn [Nat.pred option_map]. rewrite (rep_space_all (length s)) by lia.
  by rewrite (proj2 (Nat.ltb_lt (length s) (S (length s)))) by lia.
Qed.

Lemma lstrip_length s : length (lstrip s) <= length s.
Proof. destruct (lstrip_suffix s) as (ws & E & _). rewrite E at 2. rewrite length_app. lia. Qed.

Lemma sub_spaces_step fuel repl b c s :
  sub_from (S fuel) false SPACES repl b (c :: s)
  = if isspace c then repl ++ sub_from fuel false SPACES repl false (lstrip s)
    else c :: sub_from fuel false SPACES repl false s.
Proof.
  cbn [sub_from]. rewrite match_at_spaces. destruct (isspace c); [|done].
  pose proof (lstrip_length s).
  destruct (Nat.ltb_spec (length (lstrip s)) (length (c :: s))); [done|simpl in *; lia].
Qed.

Lemma sub_spaces_nil fuel repl b : sub_from fuel false SPACES repl b [] = [].
Proof. by destruct fuel. Qed.

(** Collapsing keeps the characters that are not whitespace and brings in
    spaces only. *)
Lemma sub_spaces_Forall (P : char -> Prop) fuel b s :
  P 32%N -> Forall P s -> Forall P (sub_from fuel false SPACES (str_of " ") b s).
Proof.
  intros Hsp. revert b s. induction fuel as [|fuel IH]; intros b s F; [done|].
  destruct s as [|c s]; [by rewrite sub_spaces_nil|].
  rewrite sub_spaces_step. inversion F as [|? ? Hc F']; subst.
  destruct (isspace c).
  - apply Forall_app. split; [by repeat constructor|]. apply IH.
    destruct (lstrip_suffix s) as (ws & E & _). rewrite E in F'.
    by apply Forall_app in F' as [_ ?].
  - constructor; [done|]. by apply IH.
Qed.

(** After collapsing, whitespace only occurs as single spaces. *)
Lemma sub_spaces_single fuel b s :
  length s <= fuel ->
  single_spaced (sub_from fuel false SPACES (str_of " ") b s) = true.
Proof.
  revert b s. induction fuel as [|fuel IH]; intros b s Hl.
  - destruct s; [done|simpl in Hl; lia].
  - destruct s as [|c s]; [done|]. rewrite sub_spaces_step.
    pose proof (lstrip_length s). simpl in Hl.
    destruct (isspace c) eqn:Ec.
    + change (str_of " " ++ ?x) with (32%N :: x). cbn [single_spaced].
      rewrite IH by lia. rewrite andb_true_r. change (isspace 32%N) with true.
      cbn [N.eqb Pos.eqb andb].
      pose proof (lstrip_head_ok s) as Hh. destruct (lstrip s) as [|d r] eqn:El.
      * by rewrite sub_spaces_nil.
      * destruct fuel as [|fuel']; [simpl in *; lia|].
        rewrite sub_spaces_step. simpl in Hh. rewrite Hh. simpl. by rewrite Hh.
    + cbn [single_spaced]. rewrite Ec, IH by lia. done.
Qed.

(** A single-spaced line is not changed. *)
Lemma sub_spaces_id fuel b s :
  length s <= fuel -> single_spaced s = true ->
  sub_from fuel false SPACES (str_of " ") b s = s.
Proof.
  revert b s. induction fuel as [|fuel IH]; intros b s Hl Hs.
  - done.
  - destruct s as [|c s]; [done|]. rewrite sub_spaces_step. simpl in Hl, Hs.
    apply andb_true_iff in Hs as [Hc Hs]. destruct (isspace c).
    + apply andb_true_iff in Hc as [->%N.eqb_eq Hd].
      assert (lstrip s = s) as ->.
      { destruct s as [|d s]; [done|]. simpl. apply negb_true_iff in Hd. by rewrite Hd. }
      rewrite IH by (done || lia). done.
    + rewrite IH by (done || lia). done.
Qed.
End Spaces.

(** ** [normalize], stage by stage *)

Section Normalize.
Context `{Unicode}.

Lemma any_of_set l c : in_set false (map CChar l) c = existsb (N.eqb c) l.
Proof.
  unfold in_set. cbn [xorb]. induction l as [|d l IH]; simpl; [done|]. by rewrite IH.
Qed.

Lemma ctrl_set c : in_set false [CRange 0%N 0x1f%N] c = is_ctrl c.
Proof.
  unfold in_set, is_ctrl. simpl. rewrite orb_false_r.
  destruct (N.leb_spec 0%N c); [done|lia].
Qed.

Lemma zero_width_set c :
  in_set false (map CChar [0xFEFF; 0x200B; 0x200C; 0x200D; 0x2060]%N) c = is_zero_width c.
Proof. apply any_of_set. Qed.

Lemma bracket_set c : in_set false (map CChar (str_of "[](){}")) c = is_bracket c.
Proof. apply any_of_set. Qed.

Lemma leading_colon_num_anchored :
  LEADING_COLON_NUM
  = Cat Bol (cat [star space; Chr (ch ":"); plus digit;
                  opt (cat [Chr (ch "."); plus digit]); star space]).
Proof. reflexivity. Qed.

Lemma leading_annot_anchored :
  LEADING_ANNOT
  = Cat Bol (cat [star space; opt (any_of (str_of "[({")); plus digit;
                  opt (cat [Chr (ch "."); plus digit]);
                  opt (any_of (str_of "])}")); star space]).
Proof. reflexivity. Qed.

(** The line before it is lowercased. *)
Lemma normalize_with_false_tidy `{!UnicodeLaws} s : tidy (normalize_with false s).
Proof.
  unfold normalize_with.
  set (s1 := strip s).
  set (s2 := sub false ZERO_WIDTH [] s1).
  set (s3 := nfkc s2).
  set (s4 := sub false LEADING_COLON_NUM [] s3).
  set (s5 := sub false LEADING_ANNOT [] s4).
  set (s6 := sub false BRACKET_CHARS (str_of " ") s5).
  set (s7 := sub false CTRL (str_of " ") s6).
  set (s8 := sub false SPACES (str_of " ") s7).
  assert (Z2 : zero_width_free s2).
  { unfold s2, ZERO_WIDTH, any_of.
    eapply Forall_impl; [|apply sub_cls_clears; constructor].
    intros c. cbv beta. by rewrite zero_width_set. }
  assert (Z5 : zero_width_free s5).
  { unfold s5, s4. rewrite leading_annot_anchored, leading_colon_num_anchored.
    apply sub_anchored_Forall, sub_anchored_Forall, nfkc_zero_width, Z2. }
  assert (Z6 : zero_width_free s6).
  { unfold s6, BRACKET_CHARS, any_of. apply sub_cls_Forall; [by repeat constructor|done]. }
  assert (B6 : Forall (fun c => is_bracket c = false) s6).
  { unfold s6, BRACKET_CHARS, any_of.
    eapply Forall_impl; [|apply sub_cls_clears; by repeat constructor].
    intros c. cbv beta. by rewrite bracket_set. }
  assert (Z7 : zero_width_free s7).
  { unfold s7, CTRL. apply sub_cls_Forall; [by repeat constructor|done]. }
  assert (B7 : Forall (fun c => is_bracket c = false) s7).
  { unfold s7, CTRL. apply sub_cls_Forall; [by repeat constructor|done]. }
  assert (C7 : Forall (fun c => is_ctrl c = false) s7).
  { unfold s7, CTRL.
    eapply Forall_impl; [|apply sub_cls_clears; by repeat constructor].
    intros c. cbv beta. by rewrite ctrl_set. }
  repeat split.
  - apply strip_strip.
  - apply strip_single_spaced. unfold s8, sub. apply sub_spaces_single. lia.
  - apply strip_Forall. unfold s8, sub.
    apply (sub_spaces_Forall (fun c => is_zero_width c = false /\ is_bracket c = false
                                       /\ is_ctrl c = false)); [done|].
    unfold zero_width_free in Z7. rewrite Forall_forall in Z7, B7, C7.
    apply Forall_forall. intros c Hc. auto.
Qed.

Lemma normalize_tidy `{!UnicodeLaws} s : tidy (normalize s).
Proof. apply lower_tidy, normalize_with_false_tidy. Qed.

(** On a tidy line that does not start with a number the two leading
    patterns match nothing. *)
Lemma leading_colon_num_none t b' s' g' :
  head_ok t -> ~ numbered t ->
  ~ matches false LEADING_COLON_NUM true t None b' s' g'.
Proof.
  intros Hh Hn M. rewrite leading_colon_num_anchored in M. cbn [cat] in M.
  apply matches_cat in M as (b1 & s1 & g1 & (_ & -> & -> & ->)%matches_bol & M).
  apply matches_cat in M as (b2 & s2 & g2 & M1 & M).
  apply matches_run in M1 as (w & -> & F & _).
  destruct w as [|c w].
  2: { inversion F as [|? ? Hc]; subst. rewrite space_set in Hc. simpl in Hh. congruence. }
  apply matches_cat in M as (b3 & s3 & g3 & M2 & M).
  apply matches_chr in M2 as (c & -> & ->%lit_match_exact & _).
  apply matches_cat in M as (b4 & s4 & g4 & M3 & _).
  apply matches_run in M3 as (ds & -> & F' & Hl & _).
  destruct ds as [|d ds]; [simpl in Hl; lia|].
  inversion F' as [|? ? Hd]; subst. rewrite digit_set in Hd.
  apply Hn. simpl. right. done.
Qed.

Lemma leading_annot_none t b' s' g' :
  head_ok t -> Forall (fun c => is_bracket c = false) t -> ~ numbered t ->
  ~ matches false LEADING_ANNOT true t None b' s' g'.
Proof.
  intros Hh Hb Hn M. rewrite leading_annot_anchored in M. cbn [cat] in M.
  apply matches_cat in M as (b1 & s1 & g1 & (_ & -> & -> & ->)%matches_bol & M).
  apply matches_cat in M as (b2 & s2 & g2 & M1 & M).
  apply matches_run in M1 as (w & -> & F & _).
  destruct w as [|c w].
  2: { inversion F as [|? ? Hc]; subst. rewrite space_set in Hc. simpl in Hh. congruence. }
  apply matches_cat in M as (b3 & s3 & g3 & M2 & M).
  apply matches_cat in M as (b4 & s4 & g4 & M3 & _).
  apply matches_run in M3 as (ds & -> & F' & Hl & _).
  destruct ds as [|d ds]; [simpl in Hl; lia|].
  inversion F' as [|? ? Hd]; subst. rewrite digit_set in Hd.
  apply matches_opt in M2 as [(_ & E & _)|[M2 _]].
  - simpl in E. subst s2. apply Hn. simpl. by left.
  - unfold any_of in M2. apply matches_cls in M2 as (c & -> & Hc & _).
    rewrite any_of_set in Hc. inversion Hb as [|? ? Hc']; subst.
    unfold is_bracket in Hc'. apply existsb_In_N in Hc.
    assert (existsb (N.eqb c) (str_of "[](){}") = true); [|congruence].
    apply existsb_In_N. simpl in Hc |- *. intuition.
Qed.

(** A tidy line that NFKC and lowercasing leave alone and that does not
    start with a number is a fixed point. *)
Lemma normalize_fixed t :
  tidy t -> nfkc t = t -> lower t = t -> ~ numbered t -> normalize t = t.
Proof.
  intros (Hs & Hss & F) Hk Hl Hn.
  destruct (strip_id_inv t Hs) as [Hh _].
  assert (Z : Forall (fun c => is_zero_width c = false) t).
  { revert F. apply Forall_impl. tauto. }
  assert (B : Forall (fun c => is_bracket c = false) t).
  { revert F. apply Forall_impl. tauto. }
  assert (C : Forall (fun c => is_ctrl c = false) t).
  { revert F. apply Forall_impl. tauto. }
  unfold normalize, normalize_with. rewrite Hs.
  assert (sub false ZERO_WIDTH [] t = t) as ->.
  { unfold ZERO_WIDTH, any_of. apply sub_cls_id. revert Z. apply Forall_impl.
    intros c Hc. by rewrite zero_width_set. }
  rewrite Hk.
  assert (sub false LEADING_COLON_NUM [] t = t) as ->.
  { rewrite leading_colon_num_anchored. apply sub_anchored_id. intros b' s' g'.
    rewrite <-leading_colon_num_anchored. by apply leading_colon_num_none. }
  assert (sub false LEADING_ANNOT [] t = t) as ->.
  { rewrite leading_annot_anchored. apply sub_anchored_id. intros b' s' g'.
    rewrite <-leading_annot_anchored. by apply leading_annot_none. }
  assert (sub false BRACKET_CHARS (str_of " ") t = t) as ->.
  { unfold BRACKET_CHARS, any_of. apply sub_cls_id. revert B. apply Forall_impl.
    intros c Hc. by rewrite bracket_set. }
  assert (sub false CTRL (str_of " ") t = t) as ->.
  { unfold CTRL. apply sub_cls_id. revert C. apply Forall_impl.
    intros c Hc. by rewrite ctrl_set. }
  assert (sub false SPACES (str_of " ") t = t) as ->.
  { unfold sub. apply sub_spaces_id; [lia|done]. }
  by rewrite Hs.
Qed.
End Normalize.

(** ** Character maps that keep the classes *)

Ltac nbool :=
  repeat match goal with
         | |- context [(?a <=? ?b)%N] => destruct (N.leb_spec a b); try lia
         | |- context [(?a =? ?b)%N] => destruct (N.eqb_spec a b); try lia
         end;
  try reflexivity.

Section CharMap.
Variable f : char -> char.
Hypothesis f_space : forall c, isspace (f c) = isspace c.
Hypothesis f_space_id : forall c, isspace c = true -> f c = c.

Lemma lstrip_map s : lstrip (map f s) = map f (lstrip s).
Proof. induction s as [|c s IH]; simpl; [done|]. rewrite f_space. by destruct (isspace c). Qed.

Lemma strip_map s : strip (map f s) = map f (strip s).
Proof.
  unfold strip, rstrip. by rewrite lstrip_map, <-map_rev, lstrip_map, map_rev.
Qed.

Lemma single_spaced_map s : single_spaced (map f s) = single_spaced s.
Proof.
  induction s as [|c s IH]; simpl; [done|]. rewrite IH, f_space. f_equal.
  destruct (isspace c) eqn:E; [|done]. rewrite (f_space_id c E). f_equal.
  destruct s; simpl; [done|]. by rewrite f_space.
Qed.
End CharMap.

Lemma is_bracket_eq c :
  is_bracket c
  = ((c =? 91) || (c =? 93) || (c =? 40) || (c =? 41) || (c =? 123) || (c =? 125))%N.
Proof.
  unfold is_bracket. change (str_of "[](){}") with [91; 93; 40; 41; 123; 125]%N.
  simpl. by rewrite orb_false_r, !orb_assoc.
Qed.

Lemma to_lower_classes c :
  isspace (BasicLatin.to_lower c) = isspace c /\
  (isspace c = true -> BasicLatin.to_lower c = c) /\
  is_zero_width (BasicLatin.to_lower c) = is_zero_width c /\
  is_bracket (BasicLatin.to_lower c) = is_bracket c /\
  is_ctrl (BasicLatin.to_lower c) = is_ctrl c.
Proof.
  unfold BasicLatin.to_lower, BasicLatin.is_upper.
  destruct (N.leb_spec 65 c); cbn [andb]; [|by repeat split].
  destruct (N.leb_spec c 90); cbn [andb]; [|by repeat split].
  rewrite !is_bracket_eq. unfold isspace, is_zero_width, is_ctrl.
  cbn [existsb]. repeat split; nbool.
Qed.

Lemma to_lower_idem c : BasicLatin.to_lower (BasicLatin.to_lower c) = BasicLatin.to_lower c.
Proof.
  unfold BasicLatin.to_lower, BasicLatin.is_upper.
  destruct (N.leb_spec 65 c); cbn [andb]; [|nbool].
  destruct (N.leb_spec c 90); cbn [andb]; nbool.
Qed.

Lemma map_to_lower_tidy s : tidy s -> tidy (map BasicLatin.to_lower s).
Proof.
  intros (Hs & Hss & F). repeat split.
  - rewrite strip_map by apply to_lower_classes. by rewrite Hs.
  - rewrite single_spaced_map by apply to_lower_classes. done.
  - apply Forall_map. revert F. apply Forall_impl. intros c.
    destruct (to_lower_classes c) as (_ & _ & -> & -> & ->). done.
Qed.

Lemma map_to_lower_idem s :
  map BasicLatin.to_lower (map BasicLatin.to_lower s) = map BasicLatin.to_lower s.
Proof. rewrite map_map. apply map_ext. intros c. apply to_lower_idem. Qed.

#[export] Instance basic_latin_laws : UnicodeLaws (H := BasicLatin.tables).
Proof.
  split.
  - done.
  - apply map_to_lower_idem.
  - apply map_to_lower_tidy.
Qed.

Lemma compose_zero_width s : zero_width_free s -> zero_width_free (LineBelow.compose s).
Proof.
  unfold zero_width_free.
  assert (Hn : forall n s, length s <= n ->
            Forall (fun c => is_zero_width c = false) s ->
            Forall (fun c => is_zero_width c = false) (LineBelow.compose s)).
  { clear s. induction n as [|n IH]; intros [|c [|d s]] Hl F; simpl in *; try done; try lia.
    inversion F as [|? ? Hc F']; subst. inversion F' as [|? ? Hd F'']; subst.
    destruct ((c =? 104) && (d =? 817))%N.
    - constructor; [done|]. apply IH; [lia|done].
    - constructor; [done|]. apply (IH (d :: s)); [simpl; lia|done]. }
  apply (Hn (length s)). lia.
Qed.

#[export] Instance line_below_laws : UnicodeLaws (H := LineBelow.tables).
Proof.
  split.
  - apply compose_zero_width.
  - apply map_to_lower_idem.
  - apply map_to_lower_tidy.
Qed.


(** ** Malformed lines *)

(** C6: [bad_line] is true exactly for the empty line, a line with the
    replacement character, a URL-like or HTML-like line, and a line without
    any alphabetic character, and false otherwise; with the Basic Latin
    tables the empty line, [1234] and [visit https://x.com now] are
    malformed and [hello world] is not. *)
Theorem bad_line_spec :
  (forall (U : Unicode) (s : str),
     bad_line s = true <->
     s = [] \/ In REPLACEMENT s \/ url_like s \/ html_like s \/
     Forall (fun c => isalpha c = false) s) /\
  bad_line (H := BasicLatin.tables) (str_of "") = true /\
  bad_line (H := BasicLatin.tables) (str_of "1234") = true /\
  bad_line (H := BasicLatin.tables) (str_of "visit https://x.com now") = true /\
  bad_line (H := BasicLatin.tables) (str_of "hello world") = false.
Proof.
  split; [intros U s; rewrite Forall_forall; apply bad_line_true|].
  repeat split; vm_compute; reflexivity.
Qed.

(** ** Properties of the drivers *)

(** C7: [clean_parallel] reads as many records as the shortest of its input
    files has lines, whatever the lengths, and the run ends normally; with
    five source lines and three target lines it reads three records. *)
Theorem truncation `{Unicode} (min_score : float) (max_words : Z)
    (max_ratio : float) (dedup : bool) :
  (forall fe fs fscore,
     pairs (clean_parallel min_score max_words max_ratio fe fs fscore dedup)
     = Z.of_nat (records fe fs fscore)) /\
  (forall a1 a2 a3 a4 a5 b1 b2 b3 : str,
     pairs (clean_parallel min_score max_words max_ratio
              [a1; a2; a3; a4; a5] [b1; b2; b3] None dedup) = 3%Z).
Proof.
  split.
  - intros fe fs fscore. apply clean_parallel_counters.
  - intros. by rewrite (proj1 (clean_parallel_counters _ _ _ _ _ _ _)).
Qed.

(** C8: the two output files of [clean_parallel] are aligned: there is an
    increasing list of input indices, one per written record, such that the
    N-th line of the source output is the normalized source line at the
    N-th of these indices, and the N-th line of the target output is the
    normalized target line at the same index. *)
Theorem output_alignment `{Unicode} (min_score : float) (max_words : Z)
    (max_ratio : float) (fe fs : list str) (fscore : option (list str))
    (dedup : bool) :
  let st := clean_parallel min_score max_words max_ratio fe fs fscore dedup in
  exists idx : list nat,
    StronglySorted lt idx /\
    Forall2 (fun i w => exists en_raw,
               fe !! i = Some en_raw /\ w = normalize en_raw ++ NL) idx (oe st) /\
    Forall2 (fun i w => exists sw_raw,
               fs !! i = Some sw_raw /\ w = normalize sw_raw ++ NL) idx (os st).
Proof.
  cbv zeta.
  destruct (clean_parallel_outputs min_score max_words max_ratio fe fs fscore dedup)
    as (ks & Hs & Hk & -> & ->).
  exists (map fst ks). split; [done|].
  clear Hs. induction Hk as [|k ks (He & Hf & _) _ [IH1 IH2]]; [by split|].
  split; constructor; eauto.
Qed.

(** C9: every record is counted once, as kept or as dropped: a round of
    either loop adds one to the records read and one to exactly one of the
    two counters, so the counters add up to the records read after any
    number of rounds and at the end of a run. *)
Theorem counters_add_up `{Unicode} (min_score : float) (max_words : Z)
    (max_ratio : float) (dedup : bool) :
  (forall st en sw,
     let st' := (no_score_body max_words max_ratio st en sw).1 in
     pairs st' = (pairs st + 1)%Z /\
     (kept st' = (kept st + 1)%Z /\ dropped st' = dropped st \/
      kept st' = kept st /\ dropped st' = (dropped st + 1)%Z)) /\
  (forall st en sw sc,
     let st' := (with_score_body min_score max_words max_ratio st en sw sc).1 in
     pairs st' = (pairs st + 1)%Z /\
     (kept st' = (kept st + 1)%Z /\ dropped st' = dropped st \/
      kept st' = kept st /\ dropped st' = (dropped st + 1)%Z)) /\
  (forall st line,
     let st' := (mono_body max_words st line).1 in
     m_processed st' = (m_processed st + 1)%Z /\
     (m_kept st' = (m_kept st + 1)%Z /\ m_dropped st' = m_dropped st \/
      m_kept st' = m_kept st /\ m_dropped st' = (m_dropped st + 1)%Z)) /\
  (forall rows,
     let st := no_score_loop max_words max_ratio (enter (fresh dedup)) rows in
     (kept st + dropped st)%Z = pairs st /\ pairs st = len rows) /\
  (forall rows,
     let st := with_score_loop min_score max_words max_ratio
                 (enter (fresh dedup)) rows in
     (kept st + dropped st)%Z = pairs st /\ pairs st = len rows) /\
  (forall rows,
     let st := mono_loop max_words (m_fresh dedup) rows in
     (m_kept st + m_dropped st)%Z = m_processed st /\ m_processed st = len rows) /\
  (forall fe fs fscore,
     let st := clean_parallel min_score max_words max_ratio fe fs fscore dedup in
     (kept st + dropped st)%Z = pairs st /\
     pairs st = Z.of_nat (records fe fs fscore)) /\
  (forall fin,
     let st := clean_mono_gz max_words fin dedup in
     (m_kept st + m_dropped st)%Z = m_processed st /\ m_processed st = len fin).
Proof.
  repeat split.
  - apply no_score_round.
  - destruct (no_score_round max_words max_ratio st en sw) as [_ Hr].
    destruct (no_score_body _ _ _ _ _).2; intuition.
  - apply with_score_round.
  - destruct (with_score_round min_score max_words max_ratio st en sw sc) as [_ Hr].
    destruct (with_score_body _ _ _ _ _ _ _).2; intuition.
  - apply mono_round.
  - destruct (mono_round max_words st line) as [_ Hr].
    destruct (mono_body _ _ _).2; intuition.
  - destruct (loop_counters _ _ _ _ _ _ _ _ _ (no_score_shape max_words max_ratio)
                (enter (fresh dedup)) rows) as [Hp Hk].
    unfold no_score_loop, loop in *. rewrite Hp, Hk. simpl. lia.
  - destruct (loop_counters _ _ _ _ _ _ _ _ _ (no_score_shape max_words max_ratio)
                (enter (fresh dedup)) rows) as [Hp Hk].
    unfold no_score_loop, loop in *. rewrite Hp. simpl. lia.
  - destruct (loop_counters _ _ _ _ _ _ _ _ _
                (with_score_shape min_score max_words max_ratio)
                (enter (fresh dedup)) rows) as [Hp Hk].
    unfold with_score_loop, loop in *. rewrite Hp, Hk. simpl. lia.
  - destruct (loop_counters _ _ _ _ _ _ _ _ _
                (with_score_shape min_score max_words max_ratio)
                (enter (fresh dedup)) rows) as [Hp Hk].
    unfold with_score_loop, loop in *. rewrite Hp. simpl. lia.
  - destruct (loop_counters _ _ _ _ _ _ _ _ _ (mono_shape max_words)
                (m_fresh dedup) rows) as [Hp Hk].
    unfold mono_loop, loop in *. rewrite Hp, Hk. simpl. lia.
  - destruct (loop_counters _ _ _ _ _ _ _ _ _ (mono_shape max_words)
                (m_fresh dedup) rows) as [Hp Hk].
    unfold mono_loop, loop in *. rewrite Hp. simpl. lia.
  - apply clean_parallel_counters.
  - apply clean_parallel_counters.
  - apply clean_mono_gz_counters.
  - apply clean_mono_gz_counters.
Qed.

(** C10: every line either driver writes is the normalized form of a line
    of the input file it was read from, followed by a newline, and
    [bad_line] is false of it: it is not empty, has an alphabetic
    character, has no replacement character and is neither URL-like nor
    HTML-like. *)
Theorem written_lines_well_formed `{Unicode} (min_score : float)
    (max_words : Z) (max_ratio : float) (dedup : bool) :
  let written_from (file : list str) (w : str) :=
    exists raw, In raw file /\ w = normalize raw ++ NL /\
                bad_line (normalize raw) = false /\ well_formed (normalize raw) in
  (forall fe fs fscore,
     let st := clean_parallel min_score max_words max_ratio fe fs fscore dedup in
     Forall (written_from fe) (oe st) /\ Forall (written_from fs) (os st)) /\
  (forall fin,
     Forall (written_from fin) (m_fout (clean_mono_gz max_words fin dedup))).
Proof.
  cbv zeta. split.
  - intros fe fs fscore.
    destruct (clean_parallel_outputs min_score max_words max_ratio fe fs fscore dedup)
      as (ks & _ & Hk & -> & ->).
    split; apply Forall_map; revert Hk; apply Forall_impl;
      intros k (He & Hf & Ce & Cf).
    + exists k.2.1. split; [by eapply lookup_In|]. split; [done|].
      split; [done|by apply bad_line_false].
    + exists k.2.2. split; [by eapply lookup_In|]. split; [done|].
      split; [done|by apply bad_line_false].
  - intros fin.
    destruct (clean_mono_gz_outputs max_words fin dedup) as (ks & _ & Hk & ->).
    apply Forall_map. revert Hk. apply Forall_impl. intros k (Hf & Cf).
    exists k.2. split; [by eapply lookup_In|]. split; [done|].
      split; [done|by apply bad_line_false].
Qed.

(** The scenario of the specification: of the three records only the first
    survives the malformed-line check. *)
Example end_to_end :
  let fe := [str_of "Hello!" ++ NL; str_of "   " ++ NL; str_of "<b>spam</b>" ++ NL] in
  let fs := [str_of "Hola!" ++ NL; str_of "x" ++ NL; str_of "basura" ++ NL] in
  let st := clean_parallel (H := BasicLatin.tables) default_min_score
              default_max_words default_max_ratio fe fs None false in
  oe st = [str_of "hello!" ++ NL] /\ os st = [str_of "hola!" ++ NL] /\
  kept st = 1%Z /\ dropped st = 2%Z /\ pairs st = 3%Z /\
  stdout st = [Summary 1 2].
Proof. cbv zeta. repeat split; vm_compute; reflexivity. Qed.

(** ** Properties of the pair filter *)

(** C4: with [min_score = 1.1] a record whose score line is [0.9] is dropped
    by the score check and one whose score line is [1.1] goes on to the
    checks of the lines; a record whose score line is not a number, such as
    [abc], is dropped, counted, and the loop goes on with the next record.
    In general the body drops on an unreadable score, drops on a score
    below [min_score], and else decides by the checks of the lines. *)
Theorem score_gate_cases `{Unicode} (max_words : Z) (max_ratio : float)
    (st : pstate) (en_raw sw_raw : str) :
  let body := with_score_body default_min_score max_words max_ratio st en_raw sw_raw in
  let checks := pair_filter_spec default_min_score max_words max_ratio None
                  en_raw sw_raw None in
  body (str_of "0.9" ++ NL) = (drop (count_pair st), Dropped ScoreLow) /\
  (body (str_of "1.1" ++ NL)).2 = checks /\
  body (str_of "abc" ++ NL) = (drop (count_pair st), Dropped ScoreParse) /\
  (forall rows,
     with_score_loop default_min_score max_words max_ratio st
       ((en_raw, sw_raw, str_of "abc" ++ NL) :: rows)
     = with_score_loop default_min_score max_words max_ratio
         (drop (count_pair st)) rows) /\
  (forall min_score score_raw,
     match py_float (strip score_raw) with
     | None =>
       with_score_body min_score max_words max_ratio st en_raw sw_raw score_raw
       = (drop (count_pair st), Dropped ScoreParse)
     | Some score =>
       if flt score min_score
       then with_score_body min_score max_words max_ratio st en_raw sw_raw score_raw
            = (drop (count_pair st), Dropped ScoreLow)
       else (with_score_body min_score max_words max_ratio st en_raw sw_raw score_raw).2
            = pair_filter_spec min_score max_words max_ratio None en_raw sw_raw None
     end) /\
  (with_score_body (H := BasicLatin.tables) default_min_score default_max_words
     default_max_ratio (fresh false) (str_of "Hello" ++ NL) (str_of "Hola" ++ NL)
     (str_of "1.1" ++ NL)).2 = Written.
Proof.
  cbv zeta.
  assert (P09 : py_float (strip (str_of "0.9" ++ NL)) = Some (float_of_decimal false 9 (-1)))
    by (vm_compute; reflexivity).
  assert (P11 : py_float (strip (str_of "1.1" ++ NL)) = Some default_min_score)
    by (vm_compute; reflexivity).
  assert (Pabc : py_float (strip (str_of "abc" ++ NL)) = None)
    by (vm_compute; reflexivity).
  assert (L09 : flt (float_of_decimal false 9 (-1)) default_min_score = true)
    by (vm_compute; reflexivity).
  assert (L11 : flt default_min_score default_min_score = false)
    by (vm_compute; reflexivity).
  pose proof (score_gate default_min_score max_words max_ratio st en_raw sw_raw) as G.
  split; [|split; [|split; [|split; [|split]]]].
  - specialize (G (str_of "0.9" ++ NL)). by rewrite P09, L09 in G.
  - specialize (G (str_of "1.1" ++ NL)). by rewrite P11, L11 in G.
  - specialize (G (str_of "abc" ++ NL)). by rewrite Pabc in G.
  - intros rows. specialize (G (str_of "abc" ++ NL)). rewrite Pabc in G.
    unfold with_score_loop. cbn [fold_left fst snd]. by rewrite G.
  - intros min_score score_raw. apply score_gate.
  - vm_compute. reflexivity.
Qed.

(** C5: the length ratio is [max / max(1, min)] of the two word counts, as
    a float, and the ratio check drops a pair exactly when the ratio is
    greater than [max_ratio]: a pair leaves either body through the ratio
    exit if and only if it passed the earlier checks and
    [max_ratio < ratio].  With [max_ratio = 3.0], 3 words against 30 give
    the ratio 10 and a drop, 10 words against 25 give 2.5 and no drop, and
    for all counts up to 80 the ratio exceeds 3.0 exactly when the larger
    count exceeds three times the smaller. *)
Theorem length_ratio_check `{Unicode} (min_score : float) (max_words : Z)
    (max_ratio : float) (st : pstate) (en_raw sw_raw : str) :
  let en_w := split (normalize en_raw) in
  let sw_w := split (normalize sw_raw) in
  let reaches_ratio_check :=
    clean en_raw /\ clean sw_raw /\
    (max_words <? len en_w)%Z = false /\ (max_words <? len sw_w)%Z = false in
  length_ratio en_w sw_w
  = truediv (Z.max (len en_w) (len sw_w))
            (Z.to_pos (Z.max 1 (Z.min (len en_w) (len sw_w)))) /\
  ((no_score_body max_words max_ratio st en_raw sw_raw).2 = Dropped BadRatio <->
   reaches_ratio_check /\ flt max_ratio (length_ratio en_w sw_w) = true) /\
  (forall score_raw,
     (with_score_body min_score max_words max_ratio st en_raw sw_raw score_raw).2
       = Dropped BadRatio <->
     (exists score, py_float (strip score_raw) = Some score /\
                    flt score min_score = false) /\
     reaches_ratio_check /\ flt max_ratio (length_ratio en_w sw_w) = true) /\
  (ratio_of_counts 3 30 = float_of_decimal false 10 0 /\
   flt default_max_ratio (ratio_of_counts 3 30) = true) /\
  (ratio_of_counts 10 25 = float_of_decimal false 25 (-1) /\
   flt default_max_ratio (ratio_of_counts 10 25) = false) /\
  Forall (fun a => Forall (fun b =>
            flt default_max_ratio (ratio_of_counts (Z.of_nat a) (Z.of_nat b))
            = (3 * Z.max 1 (Z.min (Z.of_nat a) (Z.of_nat b))
               <? Z.max (Z.of_nat a) (Z.of_nat b))%Z) (seq 0 81)) (seq 0 81) /\
  (no_score_body (H := BasicLatin.tables) default_max_words default_max_ratio
     (fresh false) (line_of_words 3) (line_of_words 30)).2 = Dropped BadRatio /\
  (no_score_body (H := BasicLatin.tables) default_max_words default_max_ratio
     (fresh false) (line_of_words 10) (line_of_words 25)).2 = Written.
Proof.
  cbv zeta. split; [done|]. split; [|split].
  - rewrite (no_score_filter min_score). unfold pair_filter_spec, clean.
    destruct (bad_line (normalize en_raw)), (bad_line (normalize sw_raw)); cbn [orb];
      [intuition congruence..|].
    destruct (max_words <? len (split (normalize en_raw)))%Z,
             (max_words <? len (split (normalize sw_raw)))%Z; cbn [orb];
      [intuition congruence..|].
    destruct (flt max_ratio _); [intuition congruence|].
    repeat case_match; intuition congruence.
  - intros score_raw. rewrite with_score_filter. unfold pair_filter_spec, clean.
    destruct (py_float (strip score_raw)) as [score|]; [|split; [done|]].
    2: { intros [(? & ? & _) _]. done. }
    destruct (flt score min_score) eqn:Es.
    { split; [done|]. intros [(? & [= <-] & ?) _]. congruence. }
    assert (Hs : exists score0, Some score = Some score0 /\ flt score0 min_score = false)
      by eauto.
    destruct (bad_line (normalize en_raw)), (bad_line (normalize sw_raw)); cbn [orb];
      [intuition congruence..|].
    destruct (max_words <? len (split (normalize en_raw)))%Z,
             (max_words <? len (split (normalize sw_raw)))%Z; cbn [orb];
      [intuition congruence..|].
    destruct (flt max_ratio _); intuition congruence.
  - repeat split; try (vm_compute; reflexivity).
    apply (bool_decide_unpack _). vm_compute. exact I.
Qed.

(** C2, at the failing input: with a score file the [dedup] argument changes
    nothing of what is written or counted, so a repeated pair is written
    twice; without a score file and with [dedup] no pair of lines is written
    twice.  Here the same pair [hello]/[hola], with score [1.5], comes
    twice: both are written with the score file, one without it. *)
Theorem dedup_has_no_effect_with_scores :
  (forall (U : Unicode) min_score max_words max_ratio fe fs scores,
     let on := clean_parallel min_score max_words max_ratio fe fs (Some scores) true in
     let off := clean_parallel min_score max_words max_ratio fe fs (Some scores) false in
     oe on = oe off /\ os on = os off /\
     kept on = kept off /\ dropped on = dropped off) /\
  (forall (U : Unicode) min_score max_words max_ratio fe fs,
     let on := clean_parallel min_score max_words max_ratio fe fs None true in
     base.NoDup (combine (oe on) (os on))) /\
  (let fe := [str_of "hello" ++ NL; str_of "hello" ++ NL] in
   let fs := [str_of "hola" ++ NL; str_of "hola" ++ NL] in
   let scores := [str_of "1.5" ++ NL; str_of "1.5" ++ NL] in
   let run := clean_parallel (H := BasicLatin.tables) default_min_score
                default_max_words default_max_ratio fe fs in
   (oe (run (Some scores) true) = [str_of "hello" ++ NL; str_of "hello" ++ NL] /\
    os (run (Some scores) true) = [str_of "hola" ++ NL; str_of "hola" ++ NL] /\
    kept (run (Some scores) true) = 2%Z /\ dropped (run (Some scores) true) = 0%Z) /\
   (oe (run None true) = [str_of "hello" ++ NL] /\
    os (run None true) = [str_of "hola" ++ NL] /\
    kept (run None true) = 1%Z /\ dropped (run None true) = 1%Z) /\
   (oe (run None false) = [str_of "hello" ++ NL; str_of "hello" ++ NL] /\
    kept (run None false) = 2%Z /\ dropped (run None false) = 0%Z)).
Proof.
  split.
  - intros U min_score max_words max_ratio fe fs scores. cbv zeta.
    unfold clean_parallel, helper_with_score.
    change (enter (fresh true)) with (with_seen (Some ∅) (enter (fresh false))).
    rewrite with_score_loop_seen. done.
  - split; [intros U min_score max_words max_ratio fe fs; apply no_score_no_duplicates|].
    cbv zeta. repeat split; vm_compute; reflexivity.
Qed.

(** C3, at the failing input: the body that reads scores runs the score
    checks, the malformed-line check, the word counts and the length
    ratio, in this order, and then writes: it is the filter of the
    specification with deduplication disabled, and has no exit for a
    duplicate.  With the pair [hello]/[hola] already in [seen], the record
    [hello]/[hola] with score [1.5] is written, where the filter of the
    specification, and the body that reads no scores, drop it as a
    duplicate. *)
Theorem no_duplicate_check_with_scores :
  (forall (U : Unicode) min_score max_words max_ratio st en_raw sw_raw score_raw,
     (with_score_body min_score max_words max_ratio st en_raw sw_raw score_raw).2
     = pair_filter_spec min_score max_words max_ratio None en_raw sw_raw
         (Some score_raw) /\
     (with_score_body min_score max_words max_ratio st en_raw sw_raw score_raw).2
     <> Dropped Duplicate) /\
  (let st := with_seen (Some {[ (str_of "hello", str_of "hola") ]}) (fresh true) in
   let en_raw := str_of "hello" ++ NL in
   let sw_raw := str_of "hola" ++ NL in
   let score_raw := str_of "1.5" ++ NL in
   (with_score_body (H := BasicLatin.tables) default_min_score default_max_words
      default_max_ratio st en_raw sw_raw score_raw).2 = Written /\
   pair_filter_spec (H := BasicLatin.tables) default_min_score default_max_words
     default_max_ratio (seen st) en_raw sw_raw (Some score_raw) = Dropped Duplicate /\
   (no_score_body (H := BasicLatin.tables) default_max_words default_max_ratio
      st en_raw sw_raw).2 = Dropped Duplicate).
Proof.
  split.
  - intros U min_score max_words max_ratio st en_raw sw_raw score_raw.
    rewrite with_score_filter. split; [done|].
    unfold pair_filter_spec. repeat case_match; done.
  - cbv zeta. repeat split; vm_compute; reflexivity.
Qed.

(** ** Idempotence of [normalize] *)

(** C1, counterexample: a second numeric annotation is stripped by a second
    application: [normalize] of [1 2 a] is [2 a], and [normalize] of that is
    [a]. *)
Lemma normalize_not_idempotent :
  normalize (H := BasicLatin.tables) (normalize (H := BasicLatin.tables) (str_of "1 2 a"))
  <> normalize (H := BasicLatin.tables) (str_of "1 2 a").
Proof. vm_compute. discriminate. Qed.

(** C1, amended: when the Unicode operations obey [UnicodeLaws], a
    normalized line that NFKC leaves unchanged and that does not start with
    a decimal digit, or with a colon and a decimal digit, is a fixed point
    of [normalize]. *)
Theorem normalize_idempotent_unless_numbered `{UnicodeLaws} (s : str) :
  nfkc (normalize s) = normalize s ->
  ~ numbered (normalize s) ->
  normalize (normalize s) = normalize s.
Proof.
  intros Hk Hn. apply normalize_fixed; [apply normalize_tidy|done| |done].
  unfold normalize, normalize_with. apply lower_lower.
Qed.

(** The amended claim at a line with a leading annotation, brackets and
    runs of spaces, under the Basic Latin tables. *)
Lemma normalize_idempotent_witness :
  let s := str_of "  [12] Hello,   World (x) " in
  let norm := normalize (H := BasicLatin.tables) in
  nfkc (Unicode := BasicLatin.tables) (norm s) = norm s /\
  ~ numbered (H := BasicLatin.tables) (norm s) /\
  norm (norm s) = norm s.
Proof.
  cbv zeta.
  assert (Hn : ~ numbered (H := BasicLatin.tables)
                 (normalize (H := BasicLatin.tables)
                    (str_of "  [12] Hello,   World (x) "))).
  { vm_compute. intros [E|[E _]]; discriminate. }
  split; [reflexivity|]. split; [exact Hn|].
  apply (normalize_idempotent_unless_numbered (H0 := basic_latin_laws)); [reflexivity|exact Hn].
Defined.

(** The condition on NFKC cannot be left out: lowercasing [H] followed by
    U+0331 gives [h] followed by U+0331, which NFKC composes only on the
    second application. *)
Remark normalize_composes_late :
  let s := [0x48; 0x331]%N in
  ~ numbered (H := LineBelow.tables) (normalize (H := LineBelow.tables) s) /\
  normalize (H := LineBelow.tables) s = [0x68; 0x331]%N /\
  normalize (H := LineBelow.tables) (normalize (H := LineBelow.tables) s) = [0x1E96]%N.
Proof.
  cbv zeta. split; [|split]; [|vm_compute; reflexivity..].
  vm_compute. intros [E|[E _]]; discriminate.
Qed.
